(** * envvar: environment variable parsing in the style of Go's flag package

    A shallow embedding of [envvar.go] (package [github.com/dyson/envvar])
    and the properties of its natural-language specification.

    Conventions of the embedding:
    - a Go [string] is a sequence of bytes: Rocq's [string] of [ascii];
    - fixed-width integers are [Z] with the wrap-around written out;
    - a Go map is a [gmap]; a [nil] map is [None];
    - pointers to native variables ([*bool], [*int], ...) are locations of
      a store shared by every handle that aliases them;
    - a method with a pointer receiver on the set takes the set and the
      world (store, output streams) and returns them with an outcome that
      says whether the call returned, exited the process or panicked. *)

From Stdlib Require Import ZArith Ascii String List Lia Bool.
From stdpp Require Import base gmap strings list sorting.

Open Scope Z_scope.

(* ================================================================== *)
(** * Errors *)

(** [strconv.ErrSyntax] and [strconv.ErrRange]. *)
Inductive NumErrKind := ErrSyntax | ErrRange.

(** The error values that flow through the package.  [fmtErrorf_invalid]
    is the value built by
    [fmt.Errorf("invalid value %q for env var %s: %v", value, name, err)];
    it is kept structured, so that its three operands stay visible. *)
Inductive error :=
| NumError (Func Num : string) (Err : NumErrKind)
| errorString (msg : string)
| fmtErrorf_invalid (value name : string) (err : error).

(* ================================================================== *)
(** * The part of [strconv] the package calls

    [strconv] belongs to the Go distribution, not to this repository.  It
    is written out here after the toolchain the package was written for,
    whose integer grammar is the one the package comment documents
    ("Integer envvars accept 1234, 0664, 0x1234 and may be negative"). *)
Module strconv.

Inductive Platform := P32 | P64.

(** [strconv.IntSize]: the size in bits of an [int] or [uint]. *)
Definition IntSize (p : Platform) : Z :=
  match p with P32 => 32 | P64 => 64 end.

Definition maxUint64 : Z := 2 ^ 64 - 1.

(** Conversion to [uint64] and to [int64] (two's complement). *)
Definition wrap_unsigned (bits x : Z) : Z := x mod 2 ^ bits.
Definition wrap_signed (bits x : Z) : Z :=
  (x + 2 ^ (bits - 1)) mod 2 ^ bits - 2 ^ (bits - 1).
Definition uint64 (x : Z) : Z := wrap_unsigned 64 x.
Definition int64 (x : Z) : Z := wrap_signed 64 x.

Definition syntaxError (fn str : string) : error := NumError fn str ErrSyntax.
Definition rangeError (fn str : string) : error := NumError fn str ErrRange.

(** [ParseBool]: a [switch] on the whole string. *)
Definition ParseBool (str : string) : bool * option error :=
  if (String.eqb str "1" || String.eqb str "t" || String.eqb str "T" ||
      String.eqb str "true" || String.eqb str "TRUE" || String.eqb str "True")%bool
  then (true, None)
  else if (String.eqb str "0" || String.eqb str "f" || String.eqb str "F" ||
      String.eqb str "false" || String.eqb str "FALSE" || String.eqb str "False")%bool
  then (false, None)
  else (false, Some (syntaxError "ParseBool" str)).

(** [FormatBool]. *)
Definition FormatBool (b : bool) : string := if b then "true" else "false".

Definition byte (c : ascii) : Z := Z.of_N (N_of_ascii c).

(** The digit [switch] of [ParseUint]'s loop: the value of byte [d], or
    [None] in the [default] case. *)
Definition digit_value (d : ascii) : option Z :=
  let d := byte d in
  if (byte "0" <=? d) && (d <=? byte "9") then Some (d - byte "0")
  else if (byte "a" <=? d) && (d <=? byte "z") then Some (d - byte "a" + 10)
  else if (byte "A" <=? d) && (d <=? byte "Z") then Some (d - byte "A" + 10)
  else None.

(** The loop [for ; i < len(s); i++] of [ParseUint], on the bytes still to
    read, with the accumulator [n]. *)
Fixpoint ParseUint_loop (base cutoff maxVal : Z) (rest : string) (n : Z)
  : Z * option NumErrKind :=
  match rest with
  | EmptyString => (n, None)
  | String d rest' =>
      match digit_value d with
      | None => (0, Some ErrSyntax)
      | Some v =>
          if v >=? base then (0, Some ErrSyntax)
          else if n >=? cutoff then (maxVal, Some ErrRange)
          else
            let n := uint64 (n * base) in
            let n1 := uint64 (n + v) in
            if (n1 <? n) || (n1 >? maxVal) then (maxVal, Some ErrRange)
            else ParseUint_loop base cutoff maxVal rest' n1
      end
  end.

(** The prefix [switch] of [ParseUint] for [base == 0], on a string that
    is not empty: the base and the bytes after the prefix, or [None] for
    the lone ["0x"]. *)
Definition base_prefix (s : string) : option (Z * string) :=
  match s with
  | String s0 (String s1 rest) =>
      if Ascii.eqb s0 "0" && (Ascii.eqb s1 "x" || Ascii.eqb s1 "X") then
        match rest with
        | EmptyString => None
        | _ => Some (16, rest)
        end
      else if Ascii.eqb s0 "0" then Some (8, String s1 rest)
      else Some (10, s)
  | String s0 EmptyString =>
      if Ascii.eqb s0 "0" then Some (8, EmptyString) else Some (10, s)
  | EmptyString => Some (10, s)
  end.

(** [ParseUint(s, 0, bitSize)] with [0 < bitSize <= 64] (the package
    always passes base 0): the returned number and the [Err] field of the
    [*NumError], when there is one. *)
Definition ParseUint0_kind (s : string) (bitSize : Z) : Z * option NumErrKind :=
  match s with
  | EmptyString => (0, Some ErrSyntax)
  | _ =>
      match base_prefix s with
      | None => (0, Some ErrSyntax)
      | Some (base, digits) =>
          let cutoff := maxUint64 / base + 1 in
          let maxVal := uint64 (Z.shiftl 1 bitSize - 1) in
          ParseUint_loop base cutoff maxVal digits 0
      end
  end.

Definition ParseUint0 (s : string) (bitSize : Z) : Z * option error :=
  let '(n, e) := ParseUint0_kind s bitSize in
  (n, NumError "ParseUint" s <$> e).

(** [ParseInt(s, 0, bitSize)] with [0 < bitSize <= 64]. *)
Definition ParseInt0 (s : string) (bitSize : Z) : Z * option error :=
  match s with
  | EmptyString => (0, Some (syntaxError "ParseInt" s))
  | String c s1 =>
      let '(neg, s') :=
        if Ascii.eqb c "+" then (false, s1)
        else if Ascii.eqb c "-" then (true, s1)
        else (false, s) in
      let '(un, err) := ParseUint0_kind s' bitSize in
      match err with
      | Some ErrSyntax => (0, Some (syntaxError "ParseInt" s))
      | _ =>
          let cutoff := uint64 (Z.shiftl 1 (bitSize - 1)) in
          if negb neg && (un >=? cutoff) then
            (int64 (cutoff - 1), Some (rangeError "ParseInt" s))
          else if neg && (un >? cutoff) then
            (int64 (- int64 cutoff), Some (rangeError "ParseInt" s))
          else
            let n := int64 un in
            (if neg then int64 (- n) else n, None)
      end
  end.

(** [FormatUint(u, 10)] and [FormatInt(i, 10)]: the decimal digits, most
    significant first, as [formatBits] writes them from the right end of
    its buffer; a [uint64] has at most twenty of them. *)
Definition digit_char (d : Z) : ascii := ascii_of_N (Z.to_N (byte "0" + d)).

Fixpoint formatBits_loop (fuel : nat) (u : Z) (buf : string) : string :=
  match fuel with
  | O => buf
  | S fuel' =>
      if u <? 10 then String (digit_char u) buf
      else formatBits_loop fuel' (u / 10) (String (digit_char (u mod 10)) buf)
  end.

Definition FormatUint10 (u : Z) : string := formatBits_loop 20 u EmptyString.

Definition FormatInt10 (i : Z) : string :=
  if i <? 0 then String "-" (FormatUint10 (uint64 (- i)))
  else FormatUint10 (uint64 i).

(** [Itoa(i)] is [FormatInt(int64(i), 10)]. *)
Definition Itoa (i : Z) : string := FormatInt10 (int64 i).

End strconv.

(* ================================================================== *)
(** * What the platform and the Go library supply

    The width of [int] is fixed by the platform.  The float and duration
    routines of [strconv] and [time] work in binary floating point; they
    are taken as they are, the package only passes their results on.  A
    [float64] is held as its IEEE 754 bit pattern ([math.Float64bits]), a
    [time.Duration] as its count of nanoseconds. *)
Class Arch := { platform : strconv.Platform }.

Class GoLib := {
  (** [strconv.ParseFloat(s, 64)] *)
  ParseFloat64 : string -> Z * option error;
  (** [strconv.FormatFloat(f, 'g', -1, 64)] *)
  FormatFloat_g : Z -> string;
  (** [time.ParseDuration] and [time.Duration.String] *)
  ParseDuration : string -> Z * option error;
  Duration_String : Z -> string
}.

(* ================================================================== *)
(** * Native variables and the store *)

(** The content of a native variable.  [NStrings] is the [[]string] of a
    user-defined value such as the test suite's [userVar]. *)
Inductive native :=
| NBool (b : bool)
| NInt (i : Z)
| NInt64 (i : Z)
| NUint (u : Z)
| NUint64 (u : Z)
| NString (s : string)
| NFloat64 (bits : Z)
| NDuration (d : Z)
| NStrings (l : list string).

(** A pointer to a native variable. *)
Definition loc := nat.

Abbreviation Store := (gmap loc native).

(** [*p] at each pointer type; an unset variable reads as the zero value. *)
Definition load_bool (st : Store) (p : loc) : bool :=
  match st !! p with Some (NBool b) => b | _ => false end.
Definition load_int (st : Store) (p : loc) : Z :=
  match st !! p with Some (NInt i) => i | _ => 0 end.
Definition load_int64 (st : Store) (p : loc) : Z :=
  match st !! p with Some (NInt64 i) => i | _ => 0 end.
Definition load_uint (st : Store) (p : loc) : Z :=
  match st !! p with Some (NUint i) => i | _ => 0 end.
Definition load_uint64 (st : Store) (p : loc) : Z :=
  match st !! p with Some (NUint64 i) => i | _ => 0 end.
Definition load_string (st : Store) (p : loc) : string :=
  match st !! p with Some (NString s) => s | _ => "" end.
Definition load_float64 (st : Store) (p : loc) : Z :=
  match st !! p with Some (NFloat64 f) => f | _ => 0 end.
Definition load_duration (st : Store) (p : loc) : Z :=
  match st !! p with Some (NDuration d) => d | _ => 0 end.

(* ================================================================== *)
(** * The [Value] interface and the built-in kinds *)

(** [Value] has [String() string] and [Set(string) error]; a [Getter]
    has [Get() interface{}] as well.  The methods have pointer receivers:
    they read and write the store.  A [Set] may write any native
    variable, its own or another; it does not call back into the set. *)
Record Value := {
  Value_String : Store -> string;
  Value_Set : string -> Store -> Store * option error;
  Getter_Get : option (Store -> native)
}.

Section Kinds.
Context {arch : Arch} {lib : GoLib}.
Import strconv.

Definition IntSize' : Z := IntSize platform.

(** Conversions [int(v)] and [uint(v)] from the 64-bit parse result. *)
Definition to_int (v : Z) : Z := wrap_signed IntSize' v.
Definition to_uint (v : Z) : Z := wrap_unsigned IntSize' v.

(** -- bool Value *)
Definition boolValue_Set (b : loc) (s : string) (st : Store) : Store * option error :=
  let '(v, err) := ParseBool s in
  (<[b := NBool v]> st, err).
Definition boolValue_Get (b : loc) (st : Store) : native := NBool (load_bool st b).
Definition boolValue_String (b : loc) (st : Store) : string :=
  FormatBool (load_bool st b).
Definition boolValue (p : loc) : Value :=
  {| Value_String := boolValue_String p; Value_Set := boolValue_Set p;
     Getter_Get := Some (boolValue_Get p) |}.
Definition newBoolValue (val : bool) (p : loc) (st : Store) : Value * Store :=
  (boolValue p, <[p := NBool val]> st).

(** -- int Value *)
Definition intValue_Set (i : loc) (s : string) (st : Store) : Store * option error :=
  let '(v, err) := ParseInt0 s IntSize' in
  (<[i := NInt (to_int v)]> st, err).
Definition intValue_Get (i : loc) (st : Store) : native := NInt (load_int st i).
Definition intValue_String (i : loc) (st : Store) : string := Itoa (load_int st i).
Definition intValue (p : loc) : Value :=
  {| Value_String := intValue_String p; Value_Set := intValue_Set p;
     Getter_Get := Some (intValue_Get p) |}.
Definition newIntValue (val : Z) (p : loc) (st : Store) : Value * Store :=
  (intValue p, <[p := NInt val]> st).

(** -- int64 Value *)
Definition int64Value_Set (i : loc) (s : string) (st : Store) : Store * option error :=
  let '(v, err) := ParseInt0 s 64 in
  (<[i := NInt64 v]> st, err).
Definition int64Value_Get (i : loc) (st : Store) : native := NInt64 (load_int64 st i).
Definition int64Value_String (i : loc) (st : Store) : string :=
  FormatInt10 (load_int64 st i).
Definition int64Value (p : loc) : Value :=
  {| Value_String := int64Value_String p; Value_Set := int64Value_Set p;
     Getter_Get := Some (int64Value_Get p) |}.
Definition newInt64Value (val : Z) (p : loc) (st : Store) : Value * Store :=
  (int64Value p, <[p := NInt64 val]> st).

(** -- uint Value *)
Definition uintValue_Set (i : loc) (s : string) (st : Store) : Store * option error :=
  let '(v, err) := ParseUint0 s IntSize' in
  (<[i := NUint (to_uint v)]> st, err).
Definition uintValue_Get (i : loc) (st : Store) : native := NUint (load_uint st i).
Definition uintValue_String (i : loc) (st : Store) : string :=
  FormatUint10 (uint64 (load_uint st i)).
Definition uintValue (p : loc) : Value :=
  {| Value_String := uintValue_String p; Value_Set := uintValue_Set p;
     Getter_Get := Some (uintValue_Get p) |}.
Definition newUintValue (val : Z) (p : loc) (st : Store) : Value * Store :=
  (uintValue p, <[p := NUint val]> st).

(** -- uint64 Value *)
Definition uint64Value_Set (i : loc) (s : string) (st : Store) : Store * option error :=
  let '(v, err) := ParseUint0 s 64 in
  (<[i := NUint64 v]> st, err).
Definition uint64Value_Get (i : loc) (st : Store) : native := NUint64 (load_uint64 st i).
Definition uint64Value_String (i : loc) (st : Store) : string :=
  FormatUint10 (uint64 (load_uint64 st i)).
Definition uint64Value (p : loc) : Value :=
  {| Value_String := uint64Value_String p; Value_Set := uint64Value_Set p;
     Getter_Get := Some (uint64Value_Get p) |}.
Definition newUint64Value (val : Z) (p : loc) (st : Store) : Value * Store :=
  (uint64Value p, <[p := NUint64 val]> st).

(** -- string Value *)
Definition stringValue_Set (s : loc) (val : string) (st : Store) : Store * option error :=
  (<[s := NString val]> st, None).
Definition stringValue_Get (s : loc) (st : Store) : native := NString (load_string st s).
Definition stringValue_String (s : loc) (st : Store) : string := load_string st s.
Definition stringValue (p : loc) : Value :=
  {| Value_String := stringValue_String p; Value_Set := stringValue_Set p;
     Getter_Get := Some (stringValue_Get p) |}.
Definition newStringValue (val : string) (p : loc) (st : Store) : Value * Store :=
  (stringValue p, <[p := NString val]> st).

(** -- float64 Value *)
Definition float64Value_Set (f : loc) (s : string) (st : Store) : Store * option error :=
  let '(v, err) := ParseFloat64 s in
  (<[f := NFloat64 v]> st, err).
Definition float64Value_Get (f : loc) (st : Store) : native := NFloat64 (load_float64 st f).
Definition float64Value_String (f : loc) (st : Store) : string :=
  FormatFloat_g (load_float64 st f).
Definition float64Value (p : loc) : Value :=
  {| Value_String := float64Value_String p; Value_Set := float64Value_Set p;
     Getter_Get := Some (float64Value_Get p) |}.
Definition newFloat64Value (val : Z) (p : loc) (st : Store) : Value * Store :=
  (float64Value p, <[p := NFloat64 val]> st).

(** -- time.Duration Value *)
Definition durationValue_Set (d : loc) (s : string) (st : Store) : Store * option error :=
  let '(v, err) := ParseDuration s in
  (<[d := NDuration v]> st, err).
Definition durationValue_Get (d : loc) (st : Store) : native := NDuration (load_duration st d).
Definition durationValue_String (d : loc) (st : Store) : string :=
  Duration_String (load_duration st d).
Definition durationValue (p : loc) : Value :=
  {| Value_String := durationValue_String p; Value_Set := durationValue_Set p;
     Getter_Get := Some (durationValue_Get p) |}.
Definition newDurationValue (val : Z) (p : loc) (st : Store) : Value * Store :=
  (durationValue p, <[p := NDuration val]> st).

End Kinds.

(* ================================================================== *)
(** * The set of variables *)

(** [ErrorHandling] is an [int]; the three constants are [iota] values. *)
Definition ErrorHandling := Z.
Definition ContinueOnError : ErrorHandling := 0.
Definition ExitOnError : ErrorHandling := 1.
Definition PanicOnError : ErrorHandling := 2.

(** An [EnvVar] is created once by [Var] and never written afterwards, so
    the [*EnvVar] held by the maps is modelled by the struct itself. *)
Record EnvVar := {
  Name : string;
  EnvVar_Value : Value
}.

(** An [io.Writer]: the process's standard error or a writer of the
    caller's. *)
Inductive Writer := Stderr | CallerWriter (id : nat).

Record EnvVarSet := {
  name : string;
  parsed : bool;
  actual : option (gmap string EnvVar);
  formal : option (gmap string EnvVar);
  errorHandling : ErrorHandling;
  output : option Writer
}.

Definition evs_name : EnvVarSet -> string := name.

Definition with_parsed (evs : EnvVarSet) (b : bool) : EnvVarSet :=
  {| name := name evs; parsed := b; actual := actual evs; formal := formal evs;
     errorHandling := errorHandling evs; output := output evs |}.
Definition with_actual (evs : EnvVarSet) (m : option (gmap string EnvVar)) : EnvVarSet :=
  {| name := name evs; parsed := parsed evs; actual := m; formal := formal evs;
     errorHandling := errorHandling evs; output := output evs |}.
Definition with_formal (evs : EnvVarSet) (m : option (gmap string EnvVar)) : EnvVarSet :=
  {| name := name evs; parsed := parsed evs; actual := actual evs; formal := m;
     errorHandling := errorHandling evs; output := output evs |}.

(** Reading a map that may be [nil], and writing one after the
    [if m == nil { m = make(...) }] guard. *)
Definition map_get (m : option (gmap string EnvVar)) (key : string) : option EnvVar :=
  match m with Some m => m !! key | None => None end.
Definition map_entries (m : option (gmap string EnvVar)) : gmap string EnvVar :=
  match m with Some m => m | None => ∅ end.
Definition map_put (m : option (gmap string EnvVar)) (key : string) (ev : EnvVar)
  : option (gmap string EnvVar) :=
  Some (<[key := ev]> (map_entries m)).

(** What [fmt.Fprintln] is given to print. *)
Inductive Printed := PrintString (msg : string) | PrintError (err : error).

(** A call of a record's [Value.Set], with its argument and result. *)
Record SetCall := {
  call_var : EnvVar;
  call_text : string;
  call_err : option error
}.

(** The world around a set: the native variables, what was written to
    each writer (oldest first), and the history of the [Value.Set] calls
    the set made (oldest first).  The history is a ghost: no Go code reads
    it. *)
Record World := {
  store : Store;
  written : list (Writer * Printed);
  history : list SetCall
}.

Definition State : Type := EnvVarSet * World.

(** How a call ends: it returns, [os.Exit] ends the process, or it
    panics. *)
Inductive PanicValue := PanicString (msg : string) | PanicError (err : error).
Inductive Outcome (A : Type) :=
| Returned (a : A)
| Exited (code : Z)
| Panicked (v : PanicValue).
Arguments Returned {A} a.
Arguments Exited {A} code.
Arguments Panicked {A} v.

Definition Fprintln (w : Writer) (x : Printed) (wd : World) : World :=
  {| store := store wd; written := written wd ++ [(w, x)]; history := history wd |}.

(** [envVar.Value.Set(value)] *)
Definition call_Value_Set (envVar : EnvVar) (value : string) (wd : World)
  : option error * World :=
  let '(st, err) := Value_Set (EnvVar_Value envVar) value (store wd) in
  (err, {| store := st; written := written wd;
           history := history wd ++
             [{| call_var := envVar; call_text := value; call_err := err |}] |}).

(** [sortEnvVars]: the names are collected in the order [range] happens to
    deliver the entries, which Go leaves unspecified; [order] is that
    order.  [list.Sort()] is [sort.Strings]; any sorting routine for the
    byte-wise order on strings returns the same slice.  A name that is not
    a key would give a [nil] element. *)
Definition sortEnvVars (order : list (string * EnvVar))
    (envVars : option (gmap string EnvVar)) : list (option EnvVar) :=
  let list := (fun kv => Name kv.2) <$> order in
  let list := merge_sort String.le list in
  (fun name => map_get envVars name) <$> list.

(** [range] over a map visits every entry once, in some order. *)
Definition range_order (envVars : option (gmap string EnvVar))
    (order : list (string * EnvVar)) : Prop :=
  order ≡ₚ map_to_list (map_entries envVars).

Definition out (evs : EnvVarSet) : Writer :=
  match output evs with
  | None => Stderr
  | Some w => w
  end.

Definition SetOutput (output : option Writer) (evs : EnvVarSet) : EnvVarSet :=
  {| name := name evs; parsed := parsed evs; actual := actual evs;
     formal := formal evs; errorHandling := errorHandling evs; output := output |}.

(** [VisitAll] and [Visit]: [fn] is called on each element of the sorted
    slice in turn; [A] is whatever state the observer keeps. *)
Definition VisitAll {A} (order : list (string * EnvVar)) (fn : option EnvVar -> A -> A)
    (evs : EnvVarSet) (a : A) : A :=
  foldl (fun a envVar => fn envVar a) a (sortEnvVars order (formal evs)).

Definition Visit {A} (order : list (string * EnvVar)) (fn : option EnvVar -> A -> A)
    (evs : EnvVarSet) (a : A) : A :=
  foldl (fun a envVar => fn envVar a) a (sortEnvVars order (actual evs)).

Definition Lookup (evs : EnvVarSet) (name : string) : option EnvVar :=
  map_get (formal evs) name.

(** [Set] sets the value of the named EnvVar. *)
Definition Set_ (name value : string) (σ : State) : Outcome (option error) * State :=
  let '(evs, wd) := σ in
  match map_get (formal evs) name with
  | None =>
      (Returned (Some (errorString ("no such environment variable " +:+ name))), σ)
  | Some envVar =>
      match call_Value_Set envVar value wd with
      | (Some err, wd) => (Returned (Some err), (evs, wd))
      | (None, wd) =>
          (Returned None, (with_actual evs (map_put (actual evs) name envVar), wd))
      end
  end.

Definition NEnvVar (evs : EnvVarSet) : nat := size (map_entries (actual evs)).

(** [Var] defines an EnvVar with the specified name. *)
Definition Var (value : Value) (name : string) (σ : State) : Outcome unit * State :=
  let '(evs, wd) := σ in
  let envVar := {| Name := name; EnvVar_Value := value |} in
  match map_get (formal evs) name with
  | Some _ =>
      let msg :=
        if String.eqb (evs_name evs) "" then "EnvVar redefined: " +:+ name
        else evs_name evs +:+ " sets EnvVar redefined: " +:+ name in
      (Panicked (PanicString msg), (evs, Fprintln (out evs) (PrintString msg) wd))
  | None =>
      (Returned tt, (with_formal evs (map_put (formal evs) name envVar), wd))
  end.

(** [failf] prints a formatted error and returns the error. *)
Definition failf (err : error) (σ : State) : error * State :=
  let '(evs, wd) := σ in
  (err, (evs, Fprintln (out evs) (PrintError err) wd)).

(** The loop of [parseOne]: [i] runs from 1 while [i < len(envString)];
    [todo] counts the indices still to visit. *)
Fixpoint parseOne_scan (envString : string) (i todo : nat) : string * string :=
  match todo with
  | O => (EmptyString, EmptyString)
  | S todo' =>
      if bool_decide (String.get i envString = Some "="%char) then
        (substring 0 i envString,
         substring (i + 1) (String.length envString - (i + 1)) envString)
      else parseOne_scan envString (S i) todo'
  end.

(** The [name] and [value] that [parseOne] derives from an entry. *)
Definition parseOne_split (envString : string) : string * string :=
  parseOne_scan envString 1 (String.length envString - 1).

(** [parseOne] parses one env var. *)
Definition parseOne (envString : string) (σ : State) : option error * State :=
  let '(evs, wd) := σ in
  let '(name, value) := parseOne_split envString in
  match map_get (formal evs) name with
  | None => (None, σ)
  | Some envVar =>
      match call_Value_Set envVar value wd with
      | (Some err, wd) =>
          let '(err, σ) := failf (fmtErrorf_invalid value name err) (evs, wd) in
          (Some err, σ)
      | (None, wd) =>
          (None, (with_actual evs (map_put (actual evs) name envVar), wd))
      end
  end.

(** The loop of [Parse]. *)
Fixpoint Parse_loop (environment : list string) (σ : State)
  : Outcome (option error) * State :=
  match environment with
  | [] => (Returned None, σ)
  | envString :: environment' =>
      match parseOne envString σ with
      | (Some err, σ) =>
          if errorHandling σ.1 =? ContinueOnError then (Returned (Some err), σ)
          else if errorHandling σ.1 =? ExitOnError then (Exited 2, σ)
          else if errorHandling σ.1 =? PanicOnError then (Panicked (PanicError err), σ)
          else Parse_loop environment' σ
      | (None, σ) => Parse_loop environment' σ
      end
  end.

(** [Parse] parses all env var definitions. *)
Definition Parse (environment : list string) (σ : State)
  : Outcome (option error) * State :=
  let '(evs, wd) := σ in
  Parse_loop environment (with_parsed evs true, wd).

Definition Parsed (evs : EnvVarSet) : bool := parsed evs.

(** [NewEnvVarSet] returns a new, empty set; the maps start out [nil]. *)
Definition NewEnvVarSet (name : string) (errorHandling : ErrorHandling) : EnvVarSet :=
  {| name := name; parsed := false; actual := None; formal := None;
     errorHandling := errorHandling; output := None |}.

Definition Init (name : string) (errorHandling : ErrorHandling) (evs : EnvVarSet)
  : EnvVarSet :=
  {| name := name; parsed := parsed evs; actual := actual evs; formal := formal evs;
     errorHandling := errorHandling; output := output evs |}.


(* ================================================================== *)
(** * Typed registration *)

Definition with_store (wd : World) (st : Store) : World :=
  {| store := st; written := written wd; history := history wd |}.

(** [new(T)]: the runtime chooses the address [p] and the variable
    behind it starts out as the zero value.  Go hands out the address of
    no variable that exists; a [Value] holds its pointers inside its
    methods, where the embedding cannot see them, so the address is an
    argument here and its newness a premise wherever a property needs
    it. *)
Definition new (p : loc) (zero : native) (wd : World) : World :=
  with_store wd (<[p := zero]> (store wd)).

Section Registration.
Context {arch : Arch} {lib : GoLib}.

(** [xxxVar(p, name, value)] is [evs.Var(newXxxValue(value, p), name)]:
    the default is written through [p] before [Var] runs. *)
Definition register {T} (newValue : T -> loc -> Store -> Value * Store)
    (p : loc) (name : string) (value : T) (σ : State) : Outcome unit * State :=
  let '(evs, wd) := σ in
  let '(v, st) := newValue value p (store wd) in
  Var v name (evs, with_store wd st).

Definition BoolVar := register newBoolValue.
Definition IntVar := register newIntValue.
Definition Int64Var := register newInt64Value.
Definition UintVar := register newUintValue.
Definition Uint64Var := register newUint64Value.
Definition StringVar := register newStringValue.
Definition Float64Var := register newFloat64Value.
Definition DurationVar := register newDurationValue.

(** [Xxx(name, value)] allocates the variable ([p := new(T)]), registers
    it and returns its address. *)
Definition allocate {T} (zero : native)
    (xxxVar : loc -> string -> T -> State -> Outcome unit * State)
    (p : loc) (name : string) (value : T) (σ : State) : Outcome loc * State :=
  let '(evs, wd) := σ in
  let wd := new p zero wd in
  match xxxVar p name value (evs, wd) with
  | (Returned _, σ) => (Returned p, σ)
  | (Exited code, σ) => (Exited code, σ)
  | (Panicked v, σ) => (Panicked v, σ)
  end.

Definition Bool := allocate (NBool false) BoolVar.
Definition Int := allocate (NInt 0) IntVar.
Definition Int64 := allocate (NInt64 0) Int64Var.
Definition Uint := allocate (NUint 0) UintVar.
Definition Uint64 := allocate (NUint64 0) Uint64Var.
Definition String_ := allocate (NString EmptyString) StringVar.
Definition Float64 := allocate (NFloat64 0) Float64Var.
Definition Duration := allocate (NDuration 0) DurationVar.

End Registration.

(* ================================================================== *)
(** * Programs over one set *)

(** The calls a program can make on a set, and writes to the native
    variables that the program makes on its own. *)
Inductive Op :=
| OpVar (value : Value) (name : string)
| OpSet (name value : string)
| OpParse (environment : list string)
| OpInit (name : string) (errorHandling : ErrorHandling)
| OpSetOutput (output : option Writer)
| OpStore (p : loc) (v : native).

(** The state a call leaves behind, whether it returned or not: a panic
    can be recovered from, and the state at exit is still a state. *)
Definition exec (op : Op) (σ : State) : State :=
  match op with
  | OpVar value name => (Var value name σ).2
  | OpSet name value => (Set_ name value σ).2
  | OpParse environment => (Parse environment σ).2
  | OpInit name errorHandling => (Init name errorHandling σ.1, σ.2)
  | OpSetOutput output => (SetOutput output σ.1, σ.2)
  | OpStore p v => (σ.1, with_store σ.2 (<[p := v]> (store σ.2)))
  end.

Definition run (ops : list Op) (σ : State) : State := foldl (fun σ op => exec op σ) σ ops.

(** A fresh set in a world where it has made no call yet. *)
Definition initial (σ : State) : Prop :=
  (exists name errorHandling, σ.1 = NewEnvVarSet name errorHandling) /\ history σ.2 = [].

Definition reachable (σ : State) : Prop :=
  exists σ0 ops, initial σ0 /\ σ = run ops σ0.

(* ================================================================== *)
(** * Vocabulary of the specification *)

(** The twelve tokens the boolean kind accepts. *)
Definition true_tokens : list string := ["1"; "t"; "T"; "true"; "TRUE"; "True"].
Definition false_tokens : list string := ["0"; "f"; "F"; "false"; "FALSE"; "False"].


(** The state after the entries have been handed to [parseOne] one after
    the other, and the condition that none of them reported an error. *)
Definition parse_entries (entries : list string) (σ : State) : State :=
  foldl (fun σ envString => (parseOne envString σ).2) σ entries.

Fixpoint all_accepted (entries : list string) (σ : State) : Prop :=
  match entries with
  | [] => True
  | envString :: entries' =>
      (parseOne envString σ).1 = None /\
      all_accepted entries' (parseOne envString σ).2
  end.

(** The message of a redefinition, as the specification words it: the
    set's name in front when it has one. *)
Definition redefined_message (setName name : string) : string :=
  if decide (setName = EmptyString) then "EnvVar redefined: " +:+ name
  else setName +:+ " sets EnvVar redefined: " +:+ name.

(** What holds of a set and the history of its [Value.Set] calls in every
    state a program can reach. *)
Record Inv (evs : EnvVarSet) (h : list SetCall) : Prop := {
  inv_key : forall n ev, map_get (formal evs) n = Some ev -> Name ev = n;
  inv_actual : forall n ev,
    map_get (actual evs) n = Some ev -> map_get (formal evs) n = Some ev;
  inv_called : forall c, In c h ->
    map_get (formal evs) (Name (call_var c)) = Some (call_var c);
  inv_applied : forall n,
    is_Some (map_get (actual evs) n) <->
    exists c, In c h /\ Name (call_var c) = n /\ call_err c = None
}.

(** A record's [Value.Set] was called with success. *)
Definition applied (h : list SetCall) (n : string) : Prop :=
  exists c, In c h /\ Name (call_var c) = n /\ call_err c = None.

(** Byte-wise lexicographic order on names, strict. *)
Definition string_lt (a b : string) : Prop := String.compare a b = Lt.

(** What it means for a traversal of the map [envVars] to be in order:
    the slice [sortEnvVars] builds holds no [nil], holds every record of
    the map once, has its names strictly ascending, and is the same for
    every order in which [range] may deliver the entries. *)
Definition sorted_records (envVars : option (gmap string EnvVar))
    (order : list (string * EnvVar)) (records : list EnvVar) : Prop :=
  sortEnvVars order envVars = Some <$> records /\
  records ≡ₚ (map_to_list (map_entries envVars)).*2 /\
  StronglySorted string_lt (Name <$> records) /\
  (forall order', range_order envVars order' ->
     sortEnvVars order' envVars = sortEnvVars order envVars).

(** Integer literals as the specification describes them: decimal, hex
    after [0x], octal after [0], for the signed kinds an optional leading
    [-]; and the number a literal denotes, without any bound. *)
Fixpoint digits_value (base : Z) (digits : string) (acc : Z) : option Z :=
  match digits with
  | EmptyString => Some acc
  | String c digits' =>
      match strconv.digit_value c with
      | Some v =>
          if v <? base then digits_value base digits' (acc * base + v) else None
      | None => None
      end
  end.

Definition unsigned_literal (s : string) : option Z :=
  match s with
  | EmptyString => None
  | String c rest =>
      if Ascii.eqb c "0" then
        match rest with
        | EmptyString => Some 0
        | String x hex =>
            if Ascii.eqb x "x" || Ascii.eqb x "X" then
              match hex with
              | EmptyString => None
              | _ => digits_value 16 hex 0
              end
            else digits_value 8 rest 0
        end
      else digits_value 10 s 0
  end.

Definition signed_literal (s : string) : option Z :=
  match s with
  | String c rest =>
      if Ascii.eqb c "-" then Z.opp <$> unsigned_literal rest
      else unsigned_literal s
  | EmptyString => None
  end.

(** The representable range of each integer kind. *)
Definition min_signed (bits : Z) : Z := - 2 ^ (bits - 1).
Definition max_signed (bits : Z) : Z := 2 ^ (bits - 1) - 1.
Definition max_unsigned (bits : Z) : Z := 2 ^ bits - 1.

(** The boundary an out-of-range number is clamped to. *)
Definition clamp_signed (bits v : Z) : Z :=
  if v <? min_signed bits then min_signed bits
  else if v >? max_signed bits then max_signed bits
  else v.
Definition clamp_unsigned (bits v : Z) : Z :=
  if v >? max_unsigned bits then max_unsigned bits else v.

(* ================================================================== *)
(** * Platforms and a library table for the examples *)

Definition arch32 : Arch := {| platform := strconv.P32 |}.
Definition arch64 : Arch := {| platform := strconv.P64 |}.

(** What the float and duration routines return on the texts and values
    that occur in the package's test suite (the bit patterns are those of
    0, 1, 6 and 2718e28).  It serves the examples only, and answers with
    an error or the empty text off the table. *)
Definition test_lib : GoLib := {|
  ParseFloat64 s :=
    if String.eqb s "0" then (0, None)
    else if String.eqb s "1" then (4607182418800017408, None)
    else if String.eqb s "2718e28" then (5077088352781040847, None)
    else (0, Some (strconv.syntaxError "ParseFloat" s));
  FormatFloat_g bits :=
    if bits =? 0 then "0"
    else if bits =? 4607182418800017408 then "1"
    else if bits =? 4618441417868443648 then "6"
    else if bits =? 5077088352781040847 then "2.718e+31"
    else EmptyString;
  ParseDuration s :=
    if String.eqb s "1s" then (1000000000, None)
    else if String.eqb s "2m" then (120000000000, None)
    else if String.eqb s "120s" then (120000000000, None)
    else (0, Some (errorString ("time: invalid duration " +:+ s)));
  Duration_String d :=
    if d =? 0 then "0s"
    else if d =? 7 then "7ns"
    else if d =? 1000000000 then "1s"
    else if d =? 5000000000 then "5s"
    else if d =? 120000000000 then "2m0s"
    else EmptyString
|}.

(* ================================================================== *)
(** * The default set *)

(** [EnvVars], the set behind the top-level functions, for a process
    started as [arg0]; and the set [ResetForTesting] puts in its place. *)
Definition EnvVars (arg0 : string) : EnvVarSet := NewEnvVarSet arg0 ExitOnError.
Definition ResetForTesting (arg0 : string) : EnvVarSet :=
  NewEnvVarSet arg0 ContinueOnError.

(* ================================================================== *)
(** * The user-defined values of the test suite *)
Module envvar_test.

Definition load_strings (st : Store) (p : loc) : list string :=
  match st !! p with Some (NStrings l) => l | _ => [] end.

Fixpoint join (l : list string) : string :=
  match l with
  | [] => EmptyString
  | [s] => s
  | s :: l' => s +:+ " " +:+ join l'
  end.

(** [type userVar []string]: [Set] appends, [String] is [fmt.Sprint]. *)
Definition userVar (uv : loc) : Value :=
  {| Value_String st := "[" +:+ join (load_strings st uv) +:+ "]";
     Value_Set value st := (<[uv := NStrings (load_strings st uv ++ [value])]> st, None);
     Getter_Get := None |}.

(** [type boolEnvVar struct { count int }]: [Set] counts the texts that
    [ParseBool] reads as [true]. *)
Definition boolEnvVar (b : loc) : Value :=
  {| Value_String st := strconv.Itoa (load_int st b);
     Value_Set value st :=
       (if (strconv.ParseBool value).1 then <[b := NInt (load_int st b + 1)]> st else st,
        None);
     Getter_Get := None |}.

End envvar_test.

(** A world in which nothing has happened yet. *)
Definition empty_world : World := {| store := ∅; written := []; history := [] |}.

(** Construct a value with its default, format it at once and hand the
    text back to [Set]. *)
Definition round_trip (constructed : Value * Store) : Store * option error :=
  let '(v, st) := constructed in
  Value_Set v (Value_String v st) st.

(* ================================================================== *)
(** * Vocabulary for further properties of the code *)

(** A name that the scan of [parseOne] can give back: it is not empty and
    holds no ['='] after its first byte. *)
Definition splittable_name (name : string) : Prop :=
  name <> EmptyString /\
  forall j, (1 <= j)%nat -> String.get j name <> Some "="%char.

(** The entry [name=value]. *)
Definition entry (name value : string) : string := name +:+ String "=" value.

(** The top-level [Parse()] is [EnvVars.Parse(os.Environ())] with the
    result dropped; [σ] holds the default set. *)
Module TopLevel.
Definition Parse (environ : list string) (σ : State) : Outcome unit * State :=
  match Parse environ σ with
  | (Returned _, σ) => (Returned tt, σ)
  | (Exited code, σ) => (Exited code, σ)
  | (Panicked v, σ) => (Panicked v, σ)
  end.
End TopLevel.

(** Whether a call is a [Parse]. *)
Definition is_Parse (op : Op) : bool :=
  match op with OpParse _ => true | _ => false end.

(** [v.(Getter).Get()] for a value that is a [Getter]. *)
Definition Get_of (v : Value) (st : Store) : option native :=
  (fun get => get st) <$> Getter_Get v.
(* ================================================================== *)
(** * The boolean kind *)

(** Case analysis on the comparisons of [str] with the literal tokens. *)
Ltac token_cases str :=
  repeat match goal with
  | |- context [String.eqb str ?t] =>
      destruct (String.eqb_spec str t) as [->|?]; simpl
  end.

Ltac token_finish :=
  split; intros H; try discriminate H; try reflexivity; try tauto;
  try (exfalso; intuition congruence).

Lemma ParseBool_true_iff str :
  strconv.ParseBool str = (true, None) <-> In str true_tokens.
Proof.
  unfold strconv.ParseBool, true_tokens; simpl.
  token_cases str; token_finish.
Qed.

Lemma ParseBool_false_iff str :
  strconv.ParseBool str = (false, None) <-> In str false_tokens.
Proof.
  unfold strconv.ParseBool, false_tokens; simpl.
  token_cases str; token_finish.
Qed.

Lemma ParseBool_error str :
  ~ In str (true_tokens ++ false_tokens) ->
  strconv.ParseBool str = (false, Some (strconv.syntaxError "ParseBool" str)).
Proof.
  unfold strconv.ParseBool, true_tokens, false_tokens; simpl.
  intros H. token_cases str; try reflexivity; exfalso; tauto.
Qed.

(** C7. For the boolean kind, [Set] succeeds for exactly the twelve tokens
    1, 0, t, f, T, F, true, false, TRUE, FALSE, True, False: it stores
    [true] for 1, t, T, true, TRUE, True and [false] for 0, f, F, false,
    FALSE, False; for every other string it returns an error. *)
Theorem boolValue_Set_tokens (p : loc) (s : string) (st : Store) :
  (In s true_tokens ->
     Value_Set (boolValue p) s st = (<[p := NBool true]> st, None)) /\
  (In s false_tokens ->
     Value_Set (boolValue p) s st = (<[p := NBool false]> st, None)) /\
  ((Value_Set (boolValue p) s st).2 = None <-> In s (true_tokens ++ false_tokens)) /\
  (~ In s (true_tokens ++ false_tokens) ->
     exists err, (Value_Set (boolValue p) s st).2 = Some err).
Proof.
  cbn [Value_Set boolValue]. unfold boolValue_Set.
  repeat split.
  - intros H. apply ParseBool_true_iff in H. now rewrite H.
  - intros H. apply ParseBool_false_iff in H. now rewrite H.
  - intros H. destruct (strconv.ParseBool s) as [v err] eqn:E.
    cbn in H. subst err. apply in_or_app.
    destruct v; [ left; now apply ParseBool_true_iff
                | right; now apply ParseBool_false_iff ].
  - intros H. apply in_app_or in H as [H|H].
    + apply ParseBool_true_iff in H. now rewrite H.
    + apply ParseBool_false_iff in H. now rewrite H.
  - intros H. rewrite (ParseBool_error s H). eexists. reflexivity.
Qed.

Lemma boolValue_Set_tokens_witness :
  Value_Set (boolValue 0%nat) "TRUE" ∅ = (<[0%nat := NBool true]> ∅, None) /\
  Value_Set (boolValue 0%nat) "F" ∅ = (<[0%nat := NBool false]> ∅, None) /\
  exists err, (Value_Set (boolValue 0%nat) "yes" ∅).2 = Some err.
Proof.
  split; [ | split ].
  - apply (boolValue_Set_tokens 0%nat "TRUE" ∅). simpl. tauto.
  - apply (boolValue_Set_tokens 0%nat "F" ∅). simpl. tauto.
  - apply (boolValue_Set_tokens 0%nat "yes" ∅). simpl.
    intuition discriminate.
Defined.

(* ================================================================== *)
(** * Splitting an entry *)

Lemma substring_whole (s : string) : substring 0 (String.length s) s = s.
Proof. induction s as [|b s IHs]; simpl; [ reflexivity | now f_equal ]. Qed.

Lemma get_split (s : string) : forall (k : nat) (c : ascii),
  String.get k s = Some c ->
  s = substring 0 k s +:+ String c (substring (k + 1) (String.length s - (k + 1)) s).
Proof.
  induction s as [|a s IH]; intros k c H; [ destruct k; discriminate | ].
  destruct k as [|k]; simpl in H.
  - injection H as ->. cbn [substring Nat.add String.length].
    rewrite Nat.sub_succ, Nat.sub_0_r, substring_whole. reflexivity.
  - cbn [substring Nat.add String.length]. rewrite Nat.sub_succ.
    change (String a ?x +:+ ?y) with (String a (x +:+ y)).
    f_equal. now apply IH.
Qed.

Lemma length_substring_prefix (s : string) : forall (k : nat),
  (k <= String.length s)%nat -> String.length (substring 0 k s) = k.
Proof.
  induction s as [|a s IH]; intros [|k] H; simpl in *;
    [ reflexivity | lia | reflexivity | ].
  f_equal. apply IH. lia.
Qed.

Lemma get_lt_length (s : string) : forall (k : nat) (c : ascii),
  String.get k s = Some c -> (k < String.length s)%nat.
Proof.
  induction s as [|a s IH]; intros [|k] c H; simpl in *; try discriminate; try lia.
  apply IH in H. lia.
Qed.

(** The scan finds nothing when no index in its range holds ['=']. *)
Lemma parseOne_scan_none (s : string) : forall (todo i : nat),
  (forall k, (i <= k < i + todo)%nat -> String.get k s <> Some "="%char) ->
  parseOne_scan s i todo = (EmptyString, EmptyString).
Proof.
  induction todo as [|todo IH]; intros i H; simpl; [ reflexivity | ].
  case_bool_decide as E.
  - exfalso. apply (H i); [ lia | exact E ].
  - apply IH. intros k Hk. apply H. lia.
Qed.

(** The scan stops at the first index in its range that holds ['=']. *)
Lemma parseOne_scan_first (s : string) : forall (todo i k : nat),
  (i <= k < i + todo)%nat ->
  String.get k s = Some "="%char ->
  (forall j, (i <= j < k)%nat -> String.get j s <> Some "="%char) ->
  parseOne_scan s i todo =
    (substring 0 k s, substring (k + 1) (String.length s - (k + 1)) s).
Proof.
  induction todo as [|todo IH]; intros i k Hk E Hfirst; [ lia | ].
  simpl. case_bool_decide as Ei.
  - destruct (decide (i = k)) as [->|Hne]; [ reflexivity | ].
    exfalso. apply (Hfirst i); [ lia | exact Ei ].
  - destruct (decide (i = k)) as [->|Hne]; [ contradiction | ].
    apply IH; [ lia | exact E | ]. intros j Hj. apply Hfirst. lia.
Qed.

Lemma parseOne_split_found (envString : string) (k : nat) :
  (1 <= k)%nat ->
  String.get k envString = Some "="%char ->
  (forall j, (1 <= j < k)%nat -> String.get j envString <> Some "="%char) ->
  parseOne_split envString =
    (substring 0 k envString,
     substring (k + 1) (String.length envString - (k + 1)) envString).
Proof.
  intros Hk E Hfirst. unfold parseOne_split.
  pose proof (get_lt_length _ _ _ E) as Hlt.
  apply parseOne_scan_first; [ lia | exact E | exact Hfirst ].
Qed.

Lemma parseOne_split_not_found (envString : string) :
  (forall k, (1 <= k)%nat -> String.get k envString <> Some "="%char) ->
  parseOne_split envString = (EmptyString, EmptyString).
Proof.
  intros H. unfold parseOne_split. apply parseOne_scan_none.
  intros k Hk. apply H. lia.
Qed.

(** An entry whose derived name is not registered leaves everything as
    it was. *)
Lemma parseOne_unregistered (envString : string) (σ : State) :
  map_get (formal σ.1) (parseOne_split envString).1 = None ->
  parseOne envString σ = (None, σ).
Proof.
  destruct σ as [evs wd]. unfold parseOne.
  destruct (parseOne_split envString) as [name value]. simpl.
  now intros ->.
Qed.

(** C1 (as amended).  The name is the text before the first ['='] at an
    index of at least 1 and the value the text after it; with no such
    ['='] both are empty.  An entry whose derived name, empty or not, is
    not in [formal] is ignored: no error, the set and the world are
    unchanged, nothing is written. *)
Theorem parseOne_split_and_ignore (envString : string) (σ : State) :
  (forall k, (1 <= k)%nat ->
     String.get k envString = Some "="%char ->
     (forall j, (1 <= j < k)%nat -> String.get j envString <> Some "="%char) ->
     parseOne_split envString =
       (substring 0 k envString,
        substring (k + 1) (String.length envString - (k + 1)) envString) /\
     envString =
       (parseOne_split envString).1 +:+ String "=" (parseOne_split envString).2 /\
     String.length (parseOne_split envString).1 = k) /\
  ((forall k, (1 <= k)%nat -> String.get k envString <> Some "="%char) ->
     parseOne_split envString = (EmptyString, EmptyString)) /\
  (map_get (formal σ.1) (parseOne_split envString).1 = None ->
     parseOne envString σ = (None, σ)) /\
  ((forall k, (1 <= k)%nat -> String.get k envString <> Some "="%char) ->
     map_get (formal σ.1) EmptyString = None ->
     parseOne envString σ = (None, σ)).
Proof.
  repeat split.
  - now apply parseOne_split_found.
  - rewrite (parseOne_split_found envString k) by assumption. simpl.
    now apply get_split.
  - rewrite (parseOne_split_found envString k) by assumption. simpl.
    apply length_substring_prefix.
    match goal with H : String.get k _ = Some _ |- _ =>
      apply get_lt_length in H; lia end.
  - apply parseOne_split_not_found.
  - apply parseOne_unregistered.
  - intros Hno Hreg. apply parseOne_unregistered.
    now rewrite (parseOne_split_not_found envString Hno).
Qed.

Lemma parseOne_split_and_ignore_witness :
  parseOne_split "A=b=c" = ("A", "b=c") /\
  parseOne "FOO=1" (NewEnvVarSet "" ContinueOnError,
                    {| store := ∅; written := []; history := [] |}) =
    (None, (NewEnvVarSet "" ContinueOnError,
            {| store := ∅; written := []; history := [] |})).
Proof.
  pose proof (parseOne_split_and_ignore "A=b=c"
    (NewEnvVarSet "" ContinueOnError,
     {| store := ∅; written := []; history := [] |})) as [Hsplit _].
  pose proof (parseOne_split_and_ignore "FOO=1"
    (NewEnvVarSet "" ContinueOnError,
     {| store := ∅; written := []; history := [] |})) as (_ & _ & Hign & _).
  split.
  - destruct (Hsplit 1%nat) as [E _]; [ lia | reflexivity | intros j Hj; lia | ].
    exact E.
  - apply Hign. reflexivity.
Defined.

(** C1 as first stated fails: [Var] accepts the empty name.  With
    a boolean registered under it, the entry [FOO], which holds no ['='],
    is applied to that record with the empty value: the conversion fails,
    the error is written to the output and returned. *)
Lemma parseOne_empty_name_registered :
  let σ := run [OpVar (boolValue 0%nat) ""]
             (NewEnvVarSet "" ContinueOnError,
              {| store := ∅; written := []; history := [] |}) in
  reachable σ /\
  (forall k, (1 <= k)%nat -> String.get k "FOO" <> Some "="%char) /\
  parseOne_split "FOO" = (EmptyString, EmptyString) /\
  (parseOne "FOO" σ).1 =
    Some (fmtErrorf_invalid "" "" (strconv.syntaxError "ParseBool" "")) /\
  written (parseOne "FOO" σ).2.2 =
    [(Stderr, PrintError
        (fmtErrorf_invalid "" "" (strconv.syntaxError "ParseBool" "")))] /\
  parseOne "FOO" σ <> (None, σ).
Proof.
  intros σ.
  assert (Hno : forall k, (1 <= k)%nat -> String.get k "FOO" <> Some "="%char).
  { intros [|[|[|[|k]]]] Hk; simpl; try discriminate; lia. }
  assert (E : (parseOne "FOO" σ).1 =
    Some (fmtErrorf_invalid "" "" (strconv.syntaxError "ParseBool" ""))).
  { vm_compute. reflexivity. }
  split; [ | split; [ | split; [ | split; [ | split ] ] ] ].
  - eexists _, _. split; [ | reflexivity ].
    split; [ eexists _, _; reflexivity | reflexivity ].
  - exact Hno.
  - reflexivity.
  - exact E.
  - vm_compute. reflexivity.
  - intros H. rewrite H in E. discriminate E.
Qed.

(* ================================================================== *)
(** * Direct [Set] *)

(** C4. [Set] fails with a "no such variable" error when the name is not
    in [formal]; otherwise it hands the text to the record's [Value.Set]
    and passes its error on unchanged; on success it puts the record into
    [actual].  Whatever the error policy of the set, [Set] returns: it
    never exits or panics, and its result does not depend on the policy. *)
Theorem Set_always_returns (name value : string) (evs : EnvVarSet) (wd : World) :
  (exists r, (Set_ name value (evs, wd)).1 = Returned r) /\
  (map_get (formal evs) name = None ->
     Set_ name value (evs, wd) =
       (Returned (Some (errorString ("no such environment variable " +:+ name))),
        (evs, wd))) /\
  (forall envVar st err,
     map_get (formal evs) name = Some envVar ->
     Value_Set (EnvVar_Value envVar) value (store wd) = (st, Some err) ->
     (Set_ name value (evs, wd)).1 = Returned (Some err) /\
     (Set_ name value (evs, wd)).2.1 = evs /\
     store (Set_ name value (evs, wd)).2.2 = st) /\
  (forall envVar st,
     map_get (formal evs) name = Some envVar ->
     Value_Set (EnvVar_Value envVar) value (store wd) = (st, None) ->
     (Set_ name value (evs, wd)).1 = Returned None /\
     (Set_ name value (evs, wd)).2.1 =
       with_actual evs (map_put (actual evs) name envVar) /\
     map_get (actual (Set_ name value (evs, wd)).2.1) name = Some envVar /\
     store (Set_ name value (evs, wd)).2.2 = st) /\
  written (Set_ name value (evs, wd)).2.2 = written wd /\
  (forall policy,
     (Set_ name value (Init (evs_name evs) policy evs, wd)).1 =
     (Set_ name value (evs, wd)).1).
Proof.
  unfold Set_, call_Value_Set. cbn [Init formal actual].
  destruct (map_get (formal evs) name) as [envVar|] eqn:Hf.
  - destruct (Value_Set (EnvVar_Value envVar) value (store wd)) as [st [err|]] eqn:Hs;
      cbn.
    + split; [ eauto | ]. split; [ discriminate | ].
      split; [ | split; [ | split; reflexivity ] ].
      * intros ev st' err' [= <-] H. rewrite Hs in H. injection H as <- <-. auto.
      * intros ev st' [= <-] H. rewrite Hs in H. discriminate H.
    + split; [ eauto | ]. split; [ discriminate | ].
      split; [ | split; [ | split; reflexivity ] ].
      * intros ev st' err' [= <-] H. rewrite Hs in H. discriminate H.
      * intros ev st' [= <-] H. rewrite Hs in H. injection H as <-.
        repeat split. apply lookup_insert_eq.
  - cbn. split; [ eauto | ]. split; [ reflexivity | ].
    split; [ discriminate | ]. split; [ discriminate | ]. split; reflexivity.
Qed.

Lemma Set_always_returns_witness :
  Set_ "MISSING" "1"
    (NewEnvVarSet "cmd" ExitOnError, {| store := ∅; written := []; history := [] |}) =
    (Returned (Some (errorString "no such environment variable MISSING")),
     (NewEnvVarSet "cmd" ExitOnError, {| store := ∅; written := []; history := [] |})).
Proof.
  apply (Set_always_returns "MISSING" "1" (NewEnvVarSet "cmd" ExitOnError)
           {| store := ∅; written := []; history := [] |}).
  reflexivity.
Defined.

(* ================================================================== *)
(** * Registration *)

(** C5. Registering a name that [formal] already holds is fatal: the
    message, with the set's name in front when it has one, is printed to
    the set's output and the call panics with it.  The call does not
    return, and the set, [formal] included, is as before.  The typed
    registrations ([BoolVar], [IntVar], ...) end in the same panic.  The
    set's output is the writer in its [output] field, the one last given
    to [SetOutput], and the standard error when that is [nil]. *)
Theorem Var_redefined_panics (value : Value) (name : string)
    (evs : EnvVarSet) (wd : World) (envVar : EnvVar) :
  map_get (formal evs) name = Some envVar ->
  let msg := redefined_message (evs_name evs) name in
  Var value name (evs, wd) =
    (Panicked (PanicString msg), (evs, Fprintln (out evs) (PrintString msg) wd)) /\
  written (Var value name (evs, wd)).2.2 =
    written wd ++ [(out evs, PrintString msg)] /\
  (forall r, (Var value name (evs, wd)).1 <> Returned r) /\
  formal (Var value name (evs, wd)).2.1 = formal evs /\
  (forall (T : Type) (newValue : T -> loc -> Store -> Value * Store) p default,
     (register newValue p name default (evs, wd)).1 = Panicked (PanicString msg) /\
     (register newValue p name default (evs, wd)).2.1 = evs) /\
  written (Var value name (evs, wd)).2.2 =
    written wd ++ [(default Stderr (output evs), PrintString msg)] /\
  (forall o : option Writer,
     (Var value name (SetOutput o evs, wd)).1 = Panicked (PanicString msg) /\
     written (Var value name (SetOutput o evs, wd)).2.2 =
       written wd ++ [(default Stderr o, PrintString msg)]).
Proof.
  intros Hf msg.
  assert (HVar : forall v w,
            Var v name (evs, w) =
            (Panicked (PanicString msg),
             (evs, Fprintln (out evs) (PrintString msg) w))).
  { intros v w. unfold Var. rewrite Hf. unfold msg, redefined_message.
    destruct (String.eqb_spec (evs_name evs) "") as [E|E];
      destruct (decide (evs_name evs = "")); congruence. }
  rewrite HVar. split; [ reflexivity | ]. split; [ reflexivity | ].
  split; [ intros r; discriminate | ]. split; [ reflexivity | ].
  split.
  { intros T newValue p default. unfold register.
    destruct (newValue default p (store wd)) as [v st]. rewrite HVar.
    split; reflexivity. }
  split.
  - cbn. unfold out. destruct (output evs); reflexivity.
  - intros o. unfold Var. cbn [SetOutput formal]. rewrite Hf.
    fold (evs_name (SetOutput o evs)).
    assert (Hmsg : (if String.eqb (evs_name (SetOutput o evs)) ""
                    then "EnvVar redefined: " +:+ name
                    else evs_name (SetOutput o evs) +:+ " sets EnvVar redefined: "
                         +:+ name) = msg).
    { unfold msg, redefined_message. change (evs_name (SetOutput o evs)) with (evs_name evs).
      destruct (String.eqb_spec (evs_name evs) "") as [E|E];
        destruct (decide (evs_name evs = "")); congruence. }
    rewrite Hmsg. split; [ reflexivity | ].
    cbn. unfold out. cbn. destruct o; reflexivity.
Qed.

Lemma Var_redefined_panics_witness :
  let evs := with_formal (NewEnvVarSet "test" ContinueOnError)
               (Some {[ "A" := {| Name := "A"; EnvVar_Value := boolValue 0%nat |} ]}) in
  let wd := {| store := ∅; written := []; history := [] |} in
  Var (boolValue 1%nat) "A" (evs, wd) =
    (Panicked (PanicString "test sets EnvVar redefined: A"),
     (evs, Fprintln Stderr (PrintString "test sets EnvVar redefined: A") wd)) /\
  written (Var (boolValue 1%nat) "A" (SetOutput (Some (CallerWriter 1)) evs, wd)).2.2 =
    [] ++ [(CallerWriter 1, PrintString "test sets EnvVar redefined: A")].
Proof.
  intros evs wd.
  pose proof (Var_redefined_panics (boolValue 1%nat) "A" evs wd
                {| Name := "A"; EnvVar_Value := boolValue 0%nat |} eq_refl) as H.
  split; [ exact (proj1 H) | ].
  destruct H as (_ & _ & _ & _ & _ & _ & Hout).
  exact (proj2 (Hout (Some (CallerWriter 1)))).
Defined.

(* ================================================================== *)
(** * [Parse] *)

Lemma parseOne_fields (envString : string) (σ : State) :
  let evs' := (parseOne envString σ).2.1 in
  name evs' = name σ.1 /\ parsed evs' = parsed σ.1 /\
  formal evs' = formal σ.1 /\ errorHandling evs' = errorHandling σ.1 /\
  output evs' = output σ.1.
Proof.
  destruct σ as [evs wd]. unfold parseOne, call_Value_Set, failf.
  destruct (parseOne_split envString) as [nm value].
  destruct (map_get (formal evs) nm) as [envVar|]; [ | cbn; tauto ].
  destruct (Value_Set (EnvVar_Value envVar) value (store wd)) as [st [err|]];
    cbn; tauto.
Qed.

Lemma parse_entries_errorHandling (entries : list string) : forall σ,
  errorHandling (parse_entries entries σ).1 = errorHandling σ.1.
Proof.
  induction entries as [|e entries IH]; intros σ; [ reflexivity | ].
  cbn. unfold parse_entries in IH. rewrite IH.
  apply (parseOne_fields e σ).
Qed.

Lemma parse_entries_app (pre post : list string) (σ : State) :
  parse_entries (pre ++ post) σ = parse_entries post (parse_entries pre σ).
Proof. unfold parse_entries. apply foldl_app. Qed.

(** While no entry fails, the loop keeps going, whatever the policy. *)
Lemma Parse_loop_accepted (pre rest : list string) : forall σ,
  all_accepted pre σ ->
  Parse_loop (pre ++ rest) σ = Parse_loop rest (parse_entries pre σ).
Proof.
  induction pre as [|e pre IH]; intros σ Hok; [ reflexivity | ].
  destruct Hok as [He Hok]. cbn [app Parse_loop].
  destruct (parseOne e σ) as [[err|] σ1] eqn:E; [ discriminate He | ].
  cbn in Hok. rewrite (IH σ1 Hok). cbn. now rewrite E.
Qed.

Lemma Parse_loop_all_accepted (entries : list string) (σ : State) :
  all_accepted entries σ ->
  Parse_loop entries σ = (Returned None, parse_entries entries σ).
Proof.
  intros Hok. rewrite <- (app_nil_r entries) at 1.
  now rewrite Parse_loop_accepted.
Qed.

(** Under [ContinueOnError] the loop returns at the first failing entry. *)
Lemma Parse_loop_first_failure (pre post : list string) (e : string)
    (err : error) (σ : State) :
  errorHandling σ.1 = ContinueOnError ->
  all_accepted pre σ ->
  (parseOne e (parse_entries pre σ)).1 = Some err ->
  Parse_loop (pre ++ e :: post) σ =
    (Returned (Some err), (parseOne e (parse_entries pre σ)).2).
Proof.
  intros Hpol Hok He. rewrite Parse_loop_accepted by assumption.
  cbn [Parse_loop].
  destruct (parseOne e (parse_entries pre σ)) as [[err'|] σ1] eqn:E;
    [ | discriminate He ].
  cbn in He. injection He as ->.
  assert (H : errorHandling σ1.1 = ContinueOnError).
  { pose proof (parseOne_fields e (parse_entries pre σ)) as (_ & _ & _ & H & _).
    rewrite E in H. cbn in H. rewrite H, parse_entries_errorHandling. exact Hpol. }
  rewrite H. reflexivity.
Qed.

(** Every list of entries is accepted as a whole or has a first entry
    that fails. *)
Lemma all_accepted_or_first_failure (entries : list string) : forall σ,
  all_accepted entries σ \/
  exists pre e post err,
    entries = pre ++ e :: post /\ all_accepted pre σ /\
    (parseOne e (parse_entries pre σ)).1 = Some err.
Proof.
  induction entries as [|e entries IH]; intros σ; [ now left | ].
  destruct (parseOne e σ) as [[err|] σ1] eqn:E.
  - right. exists [], e, entries, err. cbn. now rewrite E.
  - destruct (IH σ1) as [Hok | (pre & e' & post & err & -> & Hok & He)].
    + left. cbn. now rewrite E.
    + right. exists (e :: pre), e', post, err. cbn. rewrite E. cbn. auto.
Qed.

(** [parseOne] reports an error exactly when the entry names a registered
    variable whose [Value.Set] fails on the entry's value; the error wraps
    the value, the name and that failure. *)
Lemma parseOne_error_iff (envString : string) (σ : State) (err : error) :
  (parseOne envString σ).1 = Some err <->
  exists envVar st cause,
    map_get (formal σ.1) (parseOne_split envString).1 = Some envVar /\
    Value_Set (EnvVar_Value envVar) (parseOne_split envString).2 (store σ.2) =
      (st, Some cause) /\
    err = fmtErrorf_invalid (parseOne_split envString).2
            (parseOne_split envString).1 cause.
Proof.
  destruct σ as [evs wd]. unfold parseOne, call_Value_Set, failf.
  destruct (parseOne_split envString) as [nm value]. cbn [fst snd].
  destruct (map_get (formal evs) nm) as [envVar|] eqn:Hf.
  - destruct (Value_Set (EnvVar_Value envVar) value (store wd))
      as [st [cause|]] eqn:Hs; cbn; split.
    + intros [= <-]. exists envVar, st, cause. auto.
    + intros (ev & st' & cause' & [= <-] & Hs' & ->).
      rewrite Hs in Hs'. now injection Hs' as <- <-.
    + discriminate.
    + intros (ev & st' & cause' & [= <-] & Hs' & _).
      rewrite Hs in Hs'. discriminate Hs'.
  - cbn. split; [ discriminate | intros (ev & st' & cause' & [=] & _) ].
Qed.

Lemma map_get_put (m : option (gmap string EnvVar)) (k n : string) (ev : EnvVar) :
  map_get (map_put m k ev) n = if decide (k = n) then Some ev else map_get m n.
Proof.
  unfold map_put, map_get, map_entries. rewrite lookup_insert.
  destruct (decide (k = n)); [ reflexivity | ].
  destruct m; [ reflexivity | apply lookup_empty ].
Qed.

Lemma parseOne_actual (e : string) (σ : State) (n : string) :
  is_Some (map_get (actual σ.1) n) ->
  is_Some (map_get (actual (parseOne e σ).2.1) n).
Proof.
  destruct σ as [evs wd]. unfold parseOne, call_Value_Set, failf.
  destruct (parseOne_split e) as [nm value].
  destruct (map_get (formal evs) nm) as [ev|]; [ | auto ].
  destruct (Value_Set (EnvVar_Value ev) value (store wd)) as [st [err|]];
    cbn [fst snd]; [ auto | ].
  intros H. cbn [with_actual actual]. rewrite map_get_put.
  destruct (decide (nm = n)); [ eauto | exact H ].
Qed.

(** What an entry that reports no error has done: nothing, when its name
    is not registered; otherwise the record's [Value.Set] succeeded on the
    value, the store is the one it left and the record is in [actual]. *)
Lemma parseOne_accepted (e : string) (σ : State) :
  (parseOne e σ).1 = None ->
  (map_get (formal σ.1) (parseOne_split e).1 = None /\ (parseOne e σ).2 = σ) \/
  (exists envVar st,
     map_get (formal σ.1) (parseOne_split e).1 = Some envVar /\
     Value_Set (EnvVar_Value envVar) (parseOne_split e).2 (store σ.2) = (st, None) /\
     (parseOne e σ).2 =
       (with_actual σ.1 (map_put (actual σ.1) (parseOne_split e).1 envVar),
        {| store := st; written := written σ.2;
           history := history σ.2 ++
             [{| call_var := envVar; call_text := (parseOne_split e).2;
                 call_err := None |}] |})).
Proof.
  destruct σ as [evs wd]. unfold parseOne, call_Value_Set, failf.
  destruct (parseOne_split e) as [nm value]. cbn [fst snd].
  destruct (map_get (formal evs) nm) as [envVar|]; [ | now left ].
  destruct (Value_Set (EnvVar_Value envVar) value (store wd))
    as [st [cause|]] eqn:Hs; cbn [fst snd]; [ discriminate | ].
  intros _. right. exists envVar, st. repeat split. exact Hs.
Qed.

(** What a failing entry has done: the store is the one the failed
    [Value.Set] left, the error has been printed, and the set, [actual]
    included, is as before. *)
Lemma parseOne_failed (e : string) (σ : State) (err : error) :
  (parseOne e σ).1 = Some err ->
  exists envVar st cause,
    map_get (formal σ.1) (parseOne_split e).1 = Some envVar /\
    Value_Set (EnvVar_Value envVar) (parseOne_split e).2 (store σ.2) =
      (st, Some cause) /\
    (parseOne e σ).2 =
      (σ.1,
       {| store := st; written := written σ.2 ++ [(out σ.1, PrintError err)];
          history := history σ.2 ++
            [{| call_var := envVar; call_text := (parseOne_split e).2;
                call_err := Some cause |}] |}).
Proof.
  destruct σ as [evs wd]. unfold parseOne, call_Value_Set, failf, Fprintln.
  destruct (parseOne_split e) as [nm value]. cbn [fst snd].
  destruct (map_get (formal evs) nm) as [envVar|]; [ | discriminate ].
  destruct (Value_Set (EnvVar_Value envVar) value (store wd))
    as [st [cause|]] eqn:Hs; cbn [fst snd store written history]; [ | discriminate ].
  intros [= <-]. exists envVar, st, cause. repeat split. exact Hs.
Qed.

Lemma parse_entries_formal (pre : list string) : forall σ,
  formal (parse_entries pre σ).1 = formal σ.1.
Proof.
  induction pre as [|e pre IH]; intros σ; [ reflexivity | ].
  cbn. unfold parse_entries in IH. rewrite IH. apply (parseOne_fields e σ).
Qed.

Lemma parse_entries_actual (pre : list string) (n : string) : forall σ,
  is_Some (map_get (actual σ.1) n) ->
  is_Some (map_get (actual (parse_entries pre σ).1) n).
Proof.
  induction pre as [|e pre IH]; intros σ H; [ exact H | ].
  cbn. apply IH. now apply parseOne_actual.
Qed.

(** The entries that were accepted and name a registered variable have
    been applied: their names are in [actual]. *)
Lemma accepted_entries_applied (pre : list string) : forall σ e0,
  all_accepted pre σ ->
  In e0 pre ->
  is_Some (map_get (formal σ.1) (parseOne_split e0).1) ->
  is_Some (map_get (actual (parse_entries pre σ).1) (parseOne_split e0).1).
Proof.
  induction pre as [|e pre IH]; intros σ e0 Hok Hin Hreg; [ destruct Hin | ].
  destruct Hok as [He Hok]. cbn [parse_entries foldl].
  destruct Hin as [-> | Hin].
  - apply (parse_entries_actual pre _ (parseOne e0 σ).2).
    destruct (parseOne_accepted e0 σ He) as [[Hnone _] | (ev & st & _ & _ & ->)].
    + rewrite Hnone in Hreg. now destruct Hreg.
    + cbn [fst with_actual actual]. rewrite map_get_put.
      now rewrite decide_True.
  - apply (IH (parseOne e σ).2 e0 Hok Hin).
    now destruct (parseOne_fields e σ) as (_ & _ & -> & _).
Qed.

(** C2. Under [ContinueOnError], [Parse] hands the entries to [parseOne]
    in input order.  At the first entry whose conversion fails it returns
    that entry's error at once: the state is the one left by the entries
    before it and by the failing entry itself, so the earlier entries have
    been applied and the later ones are not looked at (the result is the
    same for every list of later entries, and no [Value.Set] call is made
    for them).  When no entry fails, [Parse] returns success after all of
    them.  One of the two cases always applies.  An entry fails exactly
    when it names a registered variable and the conversion of its value
    fails.  An entry that does not fail has either been ignored, its name
    not being registered, or been applied: the store is the one its
    [Value.Set] left and its record is in [actual]; a failing entry leaves
    the store its failed [Value.Set] left, prints the error and changes
    nothing else.  So when [Parse] returns, every entry before the failing
    one (every entry, when none fails) that names a registered variable
    has its name in [actual]. *)
Theorem Parse_ContinueOnError (evs : EnvVarSet) (wd : World)
    (environment : list string) :
  errorHandling evs = ContinueOnError ->
  let σ0 := (with_parsed evs true, wd) in
  (forall pre e post err,
     environment = pre ++ e :: post ->
     all_accepted pre σ0 ->
     (parseOne e (parse_entries pre σ0)).1 = Some err ->
     Parse environment (evs, wd) =
       (Returned (Some err), (parseOne e (parse_entries pre σ0)).2) /\
     (forall post', Parse (pre ++ e :: post') (evs, wd) = Parse environment (evs, wd)) /\
     history (Parse environment (evs, wd)).2.2 =
       history (parse_entries (pre ++ [e]) σ0).2) /\
  (all_accepted environment σ0 ->
     Parse environment (evs, wd) = (Returned None, parse_entries environment σ0)) /\
  (all_accepted environment σ0 \/
   exists pre e post err,
     environment = pre ++ e :: post /\ all_accepted pre σ0 /\
     (parseOne e (parse_entries pre σ0)).1 = Some err) /\
  (forall e σ err,
     (parseOne e σ).1 = Some err <->
     exists envVar st cause,
       map_get (formal σ.1) (parseOne_split e).1 = Some envVar /\
       Value_Set (EnvVar_Value envVar) (parseOne_split e).2 (store σ.2) =
         (st, Some cause) /\
       err = fmtErrorf_invalid (parseOne_split e).2 (parseOne_split e).1 cause) /\
  (forall e σ,
     (parseOne e σ).1 = None ->
     (map_get (formal σ.1) (parseOne_split e).1 = None /\ (parseOne e σ).2 = σ) \/
     (exists envVar st,
        map_get (formal σ.1) (parseOne_split e).1 = Some envVar /\
        Value_Set (EnvVar_Value envVar) (parseOne_split e).2 (store σ.2) =
          (st, None) /\
        (parseOne e σ).2 =
          (with_actual σ.1 (map_put (actual σ.1) (parseOne_split e).1 envVar),
           {| store := st; written := written σ.2;
              history := history σ.2 ++
                [{| call_var := envVar; call_text := (parseOne_split e).2;
                    call_err := None |}] |}))) /\
  (forall e σ err,
     (parseOne e σ).1 = Some err ->
     exists envVar st cause,
       map_get (formal σ.1) (parseOne_split e).1 = Some envVar /\
       Value_Set (EnvVar_Value envVar) (parseOne_split e).2 (store σ.2) =
         (st, Some cause) /\
       (parseOne e σ).2 =
         (σ.1,
          {| store := st; written := written σ.2 ++ [(out σ.1, PrintError err)];
             history := history σ.2 ++
               [{| call_var := envVar; call_text := (parseOne_split e).2;
                   call_err := Some cause |}] |})) /\
  (forall pre e post err e0,
     environment = pre ++ e :: post ->
     all_accepted pre σ0 ->
     (parseOne e (parse_entries pre σ0)).1 = Some err ->
     In e0 pre ->
     is_Some (map_get (formal evs) (parseOne_split e0).1) ->
     is_Some (map_get (actual (Parse environment (evs, wd)).2.1)
                (parseOne_split e0).1)) /\
  (forall e0,
     all_accepted environment σ0 ->
     In e0 environment ->
     is_Some (map_get (formal evs) (parseOne_split e0).1) ->
     is_Some (map_get (actual (Parse environment (evs, wd)).2.1)
                (parseOne_split e0).1)).
Proof.
  intros Hpol σ0.
  split; [ | split; [ | split; [ | split; [ apply parseOne_error_iff | ] ] ] ];
    [ | | | split; [ apply parseOne_accepted | ];
            split; [ apply parseOne_failed | ]; split ].
  4: { intros pre e post err e0 -> Hok He Hin Hreg.
       unfold Parse. change (with_parsed evs true, wd) with σ0.
       rewrite (Parse_loop_first_failure pre post e err σ0 Hpol Hok He).
       cbn [snd]. apply parseOne_actual.
       now apply accepted_entries_applied. }
  4: { intros e0 Hok Hin Hreg.
       unfold Parse. change (with_parsed evs true, wd) with σ0.
       rewrite (Parse_loop_all_accepted _ _ Hok). cbn [snd].
       now apply accepted_entries_applied. }
  - intros pre e post err -> Hok He.
    assert (HP : forall post', Parse (pre ++ e :: post') (evs, wd) =
              (Returned (Some err), (parseOne e (parse_entries pre σ0)).2)).
    { intros post'. unfold Parse. now apply Parse_loop_first_failure. }
    split; [ apply HP | ]. split.
    + intros post'. now rewrite !HP.
    + rewrite HP. cbn [snd]. rewrite parse_entries_app. reflexivity.
  - intros Hok. unfold Parse. now apply Parse_loop_all_accepted.
  - apply all_accepted_or_first_failure.
Qed.

Lemma Parse_ContinueOnError_witness :
  let σ := run [OpVar (boolValue 0%nat) "A"; OpVar (boolValue 1%nat) "B";
                OpVar (boolValue 2%nat) "C"]
             (NewEnvVarSet "test" ContinueOnError,
              {| store := ∅; written := []; history := [] |}) in
  let err := fmtErrorf_invalid "bad" "B" (strconv.syntaxError "ParseBool" "bad") in
  (Parse ["A=1"; "B=bad"; "C=1"] σ).1 = Returned (Some err) /\
  load_bool (store (Parse ["A=1"; "B=bad"; "C=1"] σ).2.2) 0%nat = true /\
  (store (Parse ["A=1"; "B=bad"; "C=1"] σ).2.2) !! 2%nat = None /\
  dom (map_entries (actual (Parse ["A=1"; "B=bad"; "C=1"] σ).2.1)) = {[ "A" ]}.
Proof.
  intros σ err.
  destruct (Parse_ContinueOnError σ.1 σ.2 ["A=1"; "B=bad"; "C=1"] eq_refl)
    as [Hfail _].
  destruct (Hfail ["A=1"] "B=bad" ["C=1"] err eq_refl) as [HP _].
  - vm_compute. tauto.
  - vm_compute. reflexivity.
  - change (σ.1, σ.2) with σ in HP. rewrite HP.
    split; [ reflexivity | ]. split; [ vm_compute; reflexivity | ].
    split; [ vm_compute; reflexivity | ].
    apply leibniz_equiv. intros x. vm_compute dom. set_solver.
Defined.

(* ================================================================== *)
(** * The invariant of the two maps *)

Lemma Inv_initial (nm : string) (policy : ErrorHandling) :
  Inv (NewEnvVarSet nm policy) [].
Proof.
  split; cbn; try discriminate.
  - intros c [].
  - intros n. split; [ intros [? [=]] | intros (c & [] & _) ].
Qed.

(** Fields other than the two maps do not matter. *)
Lemma Inv_maps (evs evs' : EnvVarSet) (h : list SetCall) :
  formal evs' = formal evs -> actual evs' = actual evs -> Inv evs h -> Inv evs' h.
Proof.
  intros Hf Ha [I1 I2 I3 I4]. split; rewrite ?Hf, ?Ha; auto.
Qed.

Lemma Inv_register (evs : EnvVarSet) (h : list SetCall) (n : string) (value : Value) :
  map_get (formal evs) n = None ->
  Inv evs h ->
  Inv (with_formal evs (map_put (formal evs) n {| Name := n; EnvVar_Value := value |})) h.
Proof.
  intros Hnew [I1 I2 I3 I4]. split; cbn [formal actual with_formal].
  - intros k ev. rewrite map_get_put.
    destruct (decide (n = k)) as [->|]; [ now intros [= <-] | apply I1 ].
  - intros k ev Ha. rewrite map_get_put.
    destruct (decide (n = k)) as [->|]; [ | now apply I2 ].
    apply I2 in Ha. congruence.
  - intros c Hc. rewrite map_get_put.
    destruct (decide (n = Name (call_var c))) as [->|]; [ | now apply I3 ].
    apply I3 in Hc. congruence.
  - exact I4.
Qed.

(** A failed call changes neither map. *)
Lemma Inv_call_failed (evs : EnvVarSet) (h : list SetCall) (n value : string)
    (ev : EnvVar) (err : error) :
  map_get (formal evs) n = Some ev ->
  Inv evs h ->
  Inv evs (h ++ [{| call_var := ev; call_text := value; call_err := Some err |}]).
Proof.
  intros Hf [I1 I2 I3 I4]. split; auto.
  - intros c Hc. apply in_app_or in Hc as [Hc|[<-|[]]]; [ now apply I3 | ].
    cbn. now rewrite (I1 _ _ Hf).
  - intros k. rewrite I4. split; intros (c & Hc & Hk & He).
    + exists c. split; [ apply in_or_app; now left | auto ].
    + apply in_app_or in Hc as [Hc|[<-|[]]]; [ eauto | discriminate He ].
Qed.

(** A successful call is followed by the insertion into [actual]. *)
Lemma Inv_call_applied (evs : EnvVarSet) (h : list SetCall) (n value : string)
    (ev : EnvVar) :
  map_get (formal evs) n = Some ev ->
  Inv evs h ->
  Inv (with_actual evs (map_put (actual evs) n ev))
      (h ++ [{| call_var := ev; call_text := value; call_err := None |}]).
Proof.
  intros Hf [I1 I2 I3 I4]. split; cbn [formal actual with_actual]; auto.
  - intros k ev'. rewrite map_get_put.
    destruct (decide (n = k)) as [->|]; [ now intros [= <-] | apply I2 ].
  - intros c Hc. apply in_app_or in Hc as [Hc|[<-|[]]]; [ now apply I3 | ].
    cbn. now rewrite (I1 _ _ Hf).
  - intros k. rewrite map_get_put.
    destruct (decide (n = k)) as [->|Hne].
    + split; [ intros _ | eauto ].
      eexists. split; [ apply in_or_app; right; left; reflexivity | ].
      cbn. split; [ now apply I1 | reflexivity ].
    + rewrite I4. split; intros (c & Hc & Hk & He).
      * exists c. split; [ apply in_or_app; now left | auto ].
      * apply in_app_or in Hc as [Hc|[<-|[]]]; [ eauto | ].
        cbn in Hk. rewrite (I1 _ _ Hf) in Hk. contradiction.
Qed.

Lemma Inv_Var (value : Value) (nm : string) (σ : State) :
  Inv σ.1 (history σ.2) ->
  Inv (Var value nm σ).2.1 (history (Var value nm σ).2.2).
Proof.
  destruct σ as [evs wd]. unfold Var. cbn [fst snd].
  destruct (map_get (formal evs) nm) eqn:Hf; cbn; [ auto | ].
  now apply Inv_register.
Qed.

Lemma Inv_Set (nm value : string) (σ : State) :
  Inv σ.1 (history σ.2) ->
  Inv (Set_ nm value σ).2.1 (history (Set_ nm value σ).2.2).
Proof.
  destruct σ as [evs wd]. unfold Set_, call_Value_Set. cbn [fst snd].
  destruct (map_get (formal evs) nm) as [ev|] eqn:Hf; [ | auto ].
  destruct (Value_Set (EnvVar_Value ev) value (store wd)) as [st [err|]]; cbn.
  - now apply (Inv_call_failed evs _ nm).
  - now apply Inv_call_applied.
Qed.

Lemma Inv_parseOne (envString : string) (σ : State) :
  Inv σ.1 (history σ.2) ->
  Inv (parseOne envString σ).2.1 (history (parseOne envString σ).2.2).
Proof.
  destruct σ as [evs wd]. unfold parseOne, call_Value_Set, failf. cbn [fst snd].
  destruct (parseOne_split envString) as [nm value].
  destruct (map_get (formal evs) nm) as [ev|] eqn:Hf; [ | auto ].
  destruct (Value_Set (EnvVar_Value ev) value (store wd)) as [st [err|]]; cbn.
  - now apply (Inv_call_failed evs _ nm).
  - now apply Inv_call_applied.
Qed.

Lemma Inv_Parse_loop (environment : list string) : forall σ,
  Inv σ.1 (history σ.2) ->
  Inv (Parse_loop environment σ).2.1 (history (Parse_loop environment σ).2.2).
Proof.
  induction environment as [|e environment IH]; intros σ HI; [ exact HI | ].
  cbn [Parse_loop]. pose proof (Inv_parseOne e σ HI) as H1.
  destruct (parseOne e σ) as [[err|] σ1]; cbn [fst snd] in *.
  - repeat case_match; auto.
  - auto.
Qed.

Lemma Inv_exec (op : Op) (σ : State) :
  Inv σ.1 (history σ.2) -> Inv (exec op σ).1 (history (exec op σ).2).
Proof.
  intros HI. destruct op; cbn [exec].
  - now apply Inv_Var.
  - now apply Inv_Set.
  - destruct σ as [evs wd]. unfold Parse. apply Inv_Parse_loop.
    cbn. eapply Inv_maps; [ | | exact HI ]; reflexivity.
  - cbn. eapply Inv_maps; [ | | exact HI ]; reflexivity.
  - cbn. eapply Inv_maps; [ | | exact HI ]; reflexivity.
  - exact HI.
Qed.

Lemma Inv_run (ops : list Op) : forall σ,
  Inv σ.1 (history σ.2) -> Inv (run ops σ).1 (history (run ops σ).2).
Proof.
  induction ops as [|op ops IH]; intros σ HI; [ exact HI | ].
  cbn. apply IH. now apply Inv_exec.
Qed.

Lemma Inv_reachable (σ : State) : reachable σ -> Inv σ.1 (history σ.2).
Proof.
  intros (σ0 & ops & [(nm & policy & H0) Hh] & ->).
  apply Inv_run. rewrite H0, Hh. apply Inv_initial.
Qed.

(** C3. After any sequence of [Var], [Set] and [Parse] calls (and of
    [Init], [SetOutput] and writes by the program to its variables), the
    names in [actual] are names in [formal], each name in [actual] maps to
    the record it maps to in [formal], and a name is in [actual] exactly
    when a [Parse] entry or a direct [Set] got a successful [Value.Set]
    for it: a failed conversion adds no name. *)
Theorem actual_subset_formal (σ : State) :
  reachable σ ->
  dom (map_entries (actual σ.1)) ⊆ dom (map_entries (formal σ.1)) /\
  (forall n ev, map_get (actual σ.1) n = Some ev -> map_get (formal σ.1) n = Some ev) /\
  (forall n, is_Some (map_get (actual σ.1) n) <-> applied (history σ.2) n).
Proof.
  intros Hr. destruct (Inv_reachable σ Hr) as [I1 I2 I3 I4].
  split; [ | split; [ exact I2 | exact I4 ] ].
  intros n. rewrite !elem_of_dom. intros [ev Hev].
  exists ev. specialize (I2 n ev). unfold map_get, map_entries in *.
  destruct (actual σ.1); [ | now rewrite lookup_empty in Hev ].
  specialize (I2 Hev). destruct (formal σ.1); [ exact I2 | discriminate I2 ].
Qed.

Lemma actual_subset_formal_witness :
  let σ := run [OpVar (boolValue 0%nat) "A"; OpVar (boolValue 1%nat) "B";
                OpSet "A" "true"; OpParse ["B=bad"]]
             (NewEnvVarSet "test" ContinueOnError,
              {| store := ∅; written := []; history := [] |}) in
  reachable σ /\
  (forall n, is_Some (map_get (actual σ.1) n) <-> applied (history σ.2) n).
Proof.
  intros σ.
  assert (Hr : reachable σ).
  { eexists _, _. split; [ | reflexivity ].
    split; [ eexists _, _; reflexivity | reflexivity ]. }
  split; [ exact Hr | ].
  apply (actual_subset_formal σ Hr).
Defined.

(* ================================================================== *)
(** * Traversal in sorted order *)

Lemma fmap_omap_Some {A B} (f : A -> option B) (l : list A) :
  Forall (fun x => is_Some (f x)) l -> f <$> l = Some <$> omap f l.
Proof.
  induction 1 as [|x l [y Hy] _ IH]; [ reflexivity | ].
  cbn. rewrite Hy. cbn. now f_equal.
Qed.

Lemma le_ne_lt (a b : string) : String.le a b -> a <> b -> string_lt a b.
Proof.
  unfold String.le, String.leb, string_lt. intros Hle Hne.
  destruct (String.compare a b) eqn:E; [ | reflexivity | contradiction ].
  apply String.compare_eq_iff in E. contradiction.
Qed.

Lemma StronglySorted_le_lt (l : list string) :
  StronglySorted String.le l -> NoDup l -> StronglySorted string_lt l.
Proof.
  induction 1 as [|x l Hs IH Hx]; intros Hnd; constructor.
  - apply IH. now apply NoDup_cons_1_2 in Hnd.
  - apply NoDup_cons in Hnd as [Hnotin _].
    rewrite Forall_forall in *. intros y Hy.
    apply le_ne_lt; [ now apply Hx | ]. intros ->. contradiction.
Qed.

Section Traversal.
Context (m : gmap string EnvVar).
Hypothesis key_is_name : forall n ev, m !! n = Some ev -> Name ev = n.

Lemma range_names (order : list (string * EnvVar)) :
  order ≡ₚ map_to_list m -> (fun kv => Name kv.2) <$> order = order.*1.
Proof.
  intros Hp. apply list_fmap_ext. intros i [k ev] Hi. cbn.
  apply key_is_name. apply elem_of_map_to_list. rewrite <- Hp.
  eapply list_elem_of_lookup_2. exact Hi.
Qed.

Lemma omap_lookup_keys :
  omap (fun n => m !! n) (map_to_list m).*1 = (map_to_list m).*2.
Proof.
  assert (H : Forall (fun kv => m !! kv.1 = Some kv.2) (map_to_list m)).
  { apply Forall_forall. intros [k ev] Hin. now apply elem_of_map_to_list. }
  induction H as [|[k ev] l Hk _ IH]; [ reflexivity | ].
  cbn in *. rewrite Hk. cbn. now f_equal.
Qed.

Lemma omap_lookup_names (l : list string) :
  Name <$> omap (fun n => m !! n) l = omap (fun n => Name <$> m !! n) l.
Proof.
  induction l as [|n l IH]; [ reflexivity | ].
  cbn. destruct (m !! n); cbn; [ now f_equal | exact IH ].
Qed.

Lemma names_of_keys (l : list string) :
  Forall (fun n => is_Some (m !! n)) l ->
  Name <$> omap (fun n => m !! n) l = l.
Proof.
  induction 1 as [|n l [ev Hev] _ IH]; [ reflexivity | ].
  cbn. rewrite Hev. cbn. f_equal; [ now apply key_is_name | exact IH ].
Qed.

Lemma sortEnvVars_sorted (order : list (string * EnvVar)) :
  order ≡ₚ map_to_list m ->
  let sorted := merge_sort String.le ((fun kv => Name kv.2) <$> order) in
  sorted ≡ₚ (map_to_list m).*1 /\
  StronglySorted String.le sorted /\
  Forall (fun n => is_Some (m !! n)) sorted.
Proof.
  intros Hp sorted.
  assert (Hperm : sorted ≡ₚ (map_to_list m).*1).
  { unfold sorted. rewrite merge_sort_Permutation, range_names by assumption.
    now rewrite Hp. }
  split; [ exact Hperm | ]. split.
  - apply StronglySorted_merge_sort; apply _.
  - apply Forall_forall. intros n Hn. rewrite Hperm in Hn.
    apply list_elem_of_fmap in Hn as ([k ev] & -> & Hin).
    apply elem_of_map_to_list in Hin. cbn. eauto.
Qed.

End Traversal.

Lemma sortEnvVars_sorted_records (envVars : option (gmap string EnvVar))
    (order : list (string * EnvVar)) :
  (forall n ev, map_get envVars n = Some ev -> Name ev = n) ->
  range_order envVars order ->
  exists records, sorted_records envVars order records.
Proof.
  intros Hkey Hp. unfold range_order in Hp.
  set (m := map_entries envVars) in *.
  assert (Hget : forall n, map_get envVars n = m !! n).
  { intros n. unfold m, map_get, map_entries.
    destruct envVars; [ reflexivity | now rewrite lookup_empty ]. }
  assert (Hkey' : forall n ev, m !! n = Some ev -> Name ev = n).
  { intros n ev. rewrite <- Hget. apply Hkey. }
  destruct (sortEnvVars_sorted m Hkey' order Hp) as (Hperm & Hsorted & Hsome).
  set (sorted := merge_sort String.le ((fun kv => Name kv.2) <$> order)) in *.
  assert (Hslice : forall order', order' ≡ₚ map_to_list m ->
            sortEnvVars order' envVars =
            Some <$> omap (fun n => m !! n)
                       (merge_sort String.le ((fun kv => Name kv.2) <$> order'))).
  { intros order' Hp'.
    destruct (sortEnvVars_sorted m Hkey' order' Hp') as (_ & _ & Hsome').
    unfold sortEnvVars. rewrite <- fmap_omap_Some by exact Hsome'.
    apply list_fmap_ext. intros i n _. apply Hget. }
  exists (omap (fun n => m !! n) sorted). split; [ | split; [ | split ] ].
  - now apply Hslice.
  - rewrite Hperm. now rewrite (omap_lookup_keys m).
  - rewrite (names_of_keys m Hkey') by exact Hsome.
    apply StronglySorted_le_lt; [ exact Hsorted | ].
    rewrite Hperm. apply NoDup_fst_map_to_list.
  - intros order' Hp'. rewrite !Hslice by assumption. do 2 f_equal.
    destruct (sortEnvVars_sorted m Hkey' order' Hp') as (Hperm' & Hsorted' & _).
    apply (Sorted_unique String.le);
      [ now apply StronglySorted_Sorted | now apply StronglySorted_Sorted | ].
    etrans; [ exact Hperm' | symmetry; exact Hperm ].
Qed.

(** C6. [VisitAll] calls the observer once for each record of [formal],
    and [Visit] once for each record of [actual], in strictly ascending
    byte-wise order of name, whatever the order in which the variables
    were registered or assigned and in which the map delivers them; before
    any successful [Parse] entry or [Set], [Visit] does not call the
    observer. *)
Theorem Visit_in_sorted_order (σ : State)
    (order_formal order_actual : list (string * EnvVar)) :
  reachable σ ->
  range_order (formal σ.1) order_formal ->
  range_order (actual σ.1) order_actual ->
  (exists records,
     sorted_records (formal σ.1) order_formal records /\
     forall (A : Type) (fn : option EnvVar -> A -> A) (a : A),
       VisitAll order_formal fn σ.1 a =
       foldl (fun a envVar => fn (Some envVar) a) a records) /\
  (exists records,
     sorted_records (actual σ.1) order_actual records /\
     forall (A : Type) (fn : option EnvVar -> A -> A) (a : A),
       Visit order_actual fn σ.1 a =
       foldl (fun a envVar => fn (Some envVar) a) a records) /\
  ((forall n, ~ applied (history σ.2) n) ->
     forall (A : Type) (fn : option EnvVar -> A -> A) (a : A),
       Visit order_actual fn σ.1 a = a).
Proof.
  intros Hr Hf Ha. destruct (Inv_reachable σ Hr) as [I1 I2 I3 I4].
  split; [ | split ].
  - destruct (sortEnvVars_sorted_records _ _ I1 Hf) as [records Hrec].
    exists records. split; [ exact Hrec | ].
    intros A fn a. unfold VisitAll. destruct Hrec as [-> _].
    now rewrite foldl_fmap.
  - assert (Hkey : forall n ev, map_get (actual σ.1) n = Some ev -> Name ev = n).
    { intros n ev Hn. apply I1. now apply I2. }
    destruct (sortEnvVars_sorted_records _ _ Hkey Ha) as [records Hrec].
    exists records. split; [ exact Hrec | ].
    intros A fn a. unfold Visit. destruct Hrec as [-> _].
    now rewrite foldl_fmap.
  - intros Hnone A fn a.
    assert (Hempty : map_entries (actual σ.1) = ∅).
    { apply map_eq. intros n. rewrite lookup_empty.
      destruct (map_entries (actual σ.1) !! n) as [ev|] eqn:E; [ | reflexivity ].
      exfalso. apply (Hnone n), I4. exists ev.
      unfold map_get, map_entries in *.
      destruct (actual σ.1); [ exact E | now rewrite lookup_empty in E ]. }
    unfold range_order in Ha. rewrite Hempty, map_to_list_empty in Ha.
    apply Permutation_nil_r in Ha. subst order_actual. reflexivity.
Qed.

Lemma Visit_in_sorted_order_witness :
  let σ := run [OpVar (boolValue 0%nat) "Z"; OpVar (boolValue 1%nat) "A";
                OpSet "Z" "true"]
             (NewEnvVarSet "" ContinueOnError,
              {| store := ∅; written := []; history := [] |}) in
  reachable σ /\
  exists records,
    sorted_records (formal σ.1) (map_to_list (map_entries (formal σ.1))) records.
Proof.
  intros σ.
  assert (Hr : reachable σ).
  { eexists _, _. split; [ | reflexivity ].
    split; [ eexists _, _; reflexivity | reflexivity ]. }
  split; [ exact Hr | ].
  destruct (Visit_in_sorted_order σ
              (map_to_list (map_entries (formal σ.1)))
              (map_to_list (map_entries (actual σ.1))) Hr)
    as [(records & Hrec & _) _];
    [ unfold range_order; reflexivity | unfold range_order; reflexivity | ].
  exists records. exact Hrec.
Defined.

(** Register [Z], then [A]: the names are visited as [A], [Z], in
    whichever order the map delivers its two entries. *)
Example VisitAll_Z_then_A :
  let σ := run [OpVar (boolValue 0%nat) "Z"; OpVar (boolValue 1%nat) "A"]
             (NewEnvVarSet "" ContinueOnError,
              {| store := ∅; written := []; history := [] |}) in
  let Z_ := {| Name := "Z"; EnvVar_Value := boolValue 0%nat |} in
  let A_ := {| Name := "A"; EnvVar_Value := boolValue 1%nat |} in
  let names := fun (ev : option EnvVar) (seen : list string) =>
                 seen ++ [from_option Name "<nil>" ev] in
  VisitAll [("Z", Z_); ("A", A_)] names σ.1 [] = ["A"; "Z"] /\
  VisitAll [("A", A_); ("Z", Z_)] names σ.1 [] = ["A"; "Z"] /\
  Visit [] names σ.1 [] = [].
Proof. vm_compute. auto. Qed.

(* ================================================================== *)
(** * Integer literals and their range *)

Lemma digit_value_bounds (c : ascii) (v : Z) :
  strconv.digit_value c = Some v -> 0 <= v < 36.
Proof.
  unfold strconv.digit_value. cbv zeta.
  change (strconv.byte "0") with 48. change (strconv.byte "9") with 57.
  change (strconv.byte "a") with 97. change (strconv.byte "z") with 122.
  change (strconv.byte "A") with 65. change (strconv.byte "Z") with 90.
  generalize (strconv.byte c). intros d.
  destruct (Z.leb_spec 48 d), (Z.leb_spec d 57), (Z.leb_spec 97 d),
    (Z.leb_spec d 122), (Z.leb_spec 65 d), (Z.leb_spec d 90);
    cbn; intros [=]; lia.
Qed.

Lemma digits_value_ge (base : Z) (digits : string) : forall acc v,
  1 <= base -> 0 <= acc ->
  digits_value base digits acc = Some v -> acc <= v.
Proof.
  induction digits as [|c digits IH]; intros acc v Hb Hacc H; cbn in H.
  - injection H as <-. lia.
  - destruct (strconv.digit_value c) as [d|] eqn:Hd; [ | discriminate ].
    apply digit_value_bounds in Hd.
    destruct (Z.ltb_spec d base); [ | discriminate ].
    apply IH in H; nia.
Qed.

Lemma uint64_small (x : Z) : 0 <= x <= strconv.maxUint64 -> strconv.uint64 x = x.
Proof.
  unfold strconv.uint64, strconv.wrap_unsigned, strconv.maxUint64.
  intros H. apply Z.mod_small. lia.
Qed.

Lemma uint64_wrapped (x : Z) :
  strconv.maxUint64 < x <= 2 * strconv.maxUint64 ->
  strconv.uint64 x = x - 2 ^ 64.
Proof.
  unfold strconv.uint64, strconv.wrap_unsigned, strconv.maxUint64.
  intros H. symmetry. apply (Z.mod_unique _ _ 1); lia.
Qed.

(** The loop of [ParseUint] on a string of digits: the number the digits
    denote when it is at most [maxVal], else the range error. *)
Lemma ParseUint_loop_digits (base maxVal : Z) (digits : string) : forall n v,
  2 <= base <= 36 ->
  0 <= maxVal <= strconv.maxUint64 ->
  0 <= n <= maxVal ->
  digits_value base digits n = Some v ->
  strconv.ParseUint_loop base (strconv.maxUint64 / base + 1) maxVal digits n =
    if v <=? maxVal then (v, None) else (maxVal, Some ErrRange).
Proof.
  induction digits as [|c digits IH]; intros n v Hb Hmax Hn H; cbn in H |- *.
  - injection H as <-. destruct (Z.leb_spec n maxVal); [ reflexivity | lia ].
  - destruct (strconv.digit_value c) as [d|] eqn:Hd; [ | discriminate ].
    pose proof (digit_value_bounds _ _ Hd) as Hdb.
    destruct (Z.ltb_spec d base) as [Hlt|]; [ | discriminate ].
    destruct (Z.geb_spec d base) as [|_]; [ lia | ].
    assert (Hv : n * base + d <= v) by (apply digits_value_ge in H; nia).
    assert (Hmu : strconv.maxUint64 = 2 ^ 64 - 1) by reflexivity.
    pose proof (Z.mul_div_le strconv.maxUint64 base ltac:(lia)) as Hdiv1.
    pose proof (Z.mul_succ_div_gt strconv.maxUint64 base ltac:(lia)) as Hdiv2.
    destruct (Z.geb_spec n (strconv.maxUint64 / base + 1)) as [Hcut|Hcut].
    + destruct (Z.leb_spec v maxVal); [ nia | reflexivity ].
    + assert (Hnb : 0 <= n * base <= strconv.maxUint64) by nia.
      rewrite (uint64_small (n * base)) by exact Hnb.
      destruct (Z_le_gt_dec (n * base + d) strconv.maxUint64) as [Hfit|Hover].
      * rewrite (uint64_small (n * base + d)) by lia.
        destruct (Z.ltb_spec (n * base + d) (n * base)); [ lia | ].
        destruct (Z.gtb_spec (n * base + d) maxVal) as [Hgt|Hle]; cbn [orb].
        -- destruct (Z.leb_spec v maxVal); [ lia | reflexivity ].
        -- apply IH; auto; lia.
      * rewrite (uint64_wrapped (n * base + d)) by lia.
        destruct (Z.ltb_spec (n * base + d - 2 ^ 64) (n * base));
          [ | lia ].
        cbn [orb]. destruct (Z.leb_spec v maxVal); [ lia | reflexivity ].
Qed.

Lemma unsigned_literal_nonneg (s : string) (v : Z) :
  unsigned_literal s = Some v -> 0 <= v.
Proof.
  destruct s as [|c rest]; [ discriminate | ]. unfold unsigned_literal.
  destruct (Ascii.eqb c "0").
  - destruct rest as [|x hex]; [ intros [= <-]; lia | ].
    destruct (Ascii.eqb x "x" || Ascii.eqb x "X").
    + destruct hex; [ discriminate | ]. apply digits_value_ge; lia.
    + apply digits_value_ge; lia.
  - apply digits_value_ge; lia.
Qed.

Lemma maxVal_bits (bits : Z) :
  bits = 32 \/ bits = 64 ->
  strconv.uint64 (Z.shiftl 1 bits - 1) = max_unsigned bits /\
  strconv.uint64 (Z.shiftl 1 (bits - 1)) = 2 ^ (bits - 1).
Proof. intros [->| ->]; split; reflexivity. Qed.

Lemma base_prefix_literal (s : string) (v : Z) :
  unsigned_literal s = Some v ->
  exists base digits,
    strconv.base_prefix s = Some (base, digits) /\
    2 <= base <= 36 /\ digits_value base digits 0 = Some v.
Proof.
  destruct s as [|c rest]; [ discriminate | ].
  unfold unsigned_literal, strconv.base_prefix.
  destruct (Ascii.eqb c "0") eqn:Ec.
  - destruct rest as [|x hex].
    + intros [= <-]. exists 8, EmptyString. repeat split; lia.
    + cbn [andb]. destruct (Ascii.eqb x "x" || Ascii.eqb x "X").
      * destruct hex as [|h hex]; [ discriminate | ].
        intros H. exists 16, (String h hex). repeat split; auto; lia.
      * intros H. exists 8, (String x hex). repeat split; auto; lia.
  - intros H. exists 10, (String c rest).
    destruct rest; cbn [andb]; repeat split; auto; lia.
Qed.

(** [ParseUint] on an unsigned literal. *)
Lemma ParseUint0_kind_literal (s : string) (v bits : Z) :
  bits = 32 \/ bits = 64 ->
  unsigned_literal s = Some v ->
  strconv.ParseUint0_kind s bits =
    if v <=? max_unsigned bits then (v, None)
    else (max_unsigned bits, Some ErrRange).
Proof.
  intros Hbits H.
  assert (Hmax : 0 <= max_unsigned bits <= strconv.maxUint64).
  { destruct Hbits as [->| ->]; vm_compute; split; discriminate. }
  destruct (maxVal_bits bits Hbits) as [HmaxVal _].
  destruct (base_prefix_literal s v H) as (base & digits & Hbp & Hbase & Hd).
  destruct s as [|c rest]; [ discriminate | ].
  unfold strconv.ParseUint0_kind. rewrite Hbp. cbv zeta. rewrite HmaxVal.
  apply ParseUint_loop_digits; auto; lia.
Qed.

Lemma unsigned_literal_no_sign (c : ascii) (rest : string) (v : Z) :
  unsigned_literal (String c rest) = Some v ->
  Ascii.eqb c "+" = false /\ Ascii.eqb c "-" = false.
Proof.
  unfold unsigned_literal.
  destruct (Ascii.eqb_spec c "0") as [->|_]; [ now split | ].
  cbn [digits_value].
  destruct (Ascii.eqb_spec c "+") as [->|_]; [ discriminate | ].
  destruct (Ascii.eqb_spec c "-") as [->|_]; [ discriminate | ].
  now split.
Qed.

Lemma int64_small (x : Z) : - 2 ^ 63 <= x < 2 ^ 63 -> strconv.int64 x = x.
Proof.
  unfold strconv.int64, strconv.wrap_signed. intros H.
  change (2 ^ (64 - 1)) with (2 ^ 63).
  rewrite Z.mod_small; lia.
Qed.

Lemma int64_min : strconv.int64 (2 ^ 63) = - 2 ^ 63.
Proof. reflexivity. Qed.

(** [ParseInt] on a signed literal: the number it denotes when the kind
    can hold it, else the nearer boundary and the range error. *)
Lemma ParseInt0_literal (s : string) (v bits : Z) :
  bits = 32 \/ bits = 64 ->
  signed_literal s = Some v ->
  strconv.ParseInt0 s bits =
    if v <? min_signed bits then
      (min_signed bits, Some (strconv.rangeError "ParseInt" s))
    else if v >? max_signed bits then
      (max_signed bits, Some (strconv.rangeError "ParseInt" s))
    else (v, None).
Proof.
  intros Hbits H.
  destruct (maxVal_bits bits Hbits) as [_ Hcut].
  destruct s as [|c rest]; [ discriminate | ].
  unfold signed_literal in H. unfold strconv.ParseInt0.
  assert (Hpow : 2 ^ (bits - 1) = 2 ^ 31 /\ max_unsigned bits = 2 ^ 32 - 1 \/
                 2 ^ (bits - 1) = 2 ^ 63 /\ max_unsigned bits = 2 ^ 64 - 1).
  { destruct Hbits as [->| ->]; [ left | right ]; split; reflexivity. }
  unfold min_signed, max_signed.
  destruct (Ascii.eqb c "-") eqn:Eminus.
  - destruct (unsigned_literal rest) as [u|] eqn:Hu; [ | discriminate ].
    injection H as <-.
    apply Ascii.eqb_eq in Eminus as ->. cbn [Ascii.eqb Bool.eqb].
    rewrite (ParseUint0_kind_literal rest u bits Hbits Hu), Hcut.
    pose proof (unsigned_literal_nonneg _ _ Hu) as Hu0.
    destruct (Z.leb_spec u (max_unsigned bits)) as [Hle|Hgt]; cbn [negb andb].
    + destruct (Z.gtb_spec u (2 ^ (bits - 1))) as [Hbig|Hfit].
      * destruct (Z.ltb_spec (- u) (- 2 ^ (bits - 1))); [ | lia ].
        f_equal. destruct Hpow as [[-> _]|[-> _]];
          [ rewrite (int64_small (2 ^ 31)) by lia; apply int64_small; lia
          | rewrite int64_min; reflexivity ].
      * destruct (Z.ltb_spec (- u) (- 2 ^ (bits - 1))); [ lia | ].
        destruct (Z.gtb_spec (- u) (2 ^ (bits - 1) - 1)); [ lia | ].
        f_equal.
        destruct (Z.eq_dec u (2 ^ 63)) as [->|Hne];
          [ reflexivity | ].
        rewrite (int64_small u) by (destruct Hpow as [[E _]|[E _]]; rewrite E in *; lia).
        apply int64_small. destruct Hpow as [[E _]|[E _]]; rewrite E in *; lia.
    + destruct (Z.gtb_spec (max_unsigned bits) (2 ^ (bits - 1))) as [_|Hno];
        [ | destruct Hpow as [[E1 E2]|[E1 E2]]; rewrite E1, E2 in *; lia ].
      destruct (Z.ltb_spec (- u) (- 2 ^ (bits - 1)));
        [ | destruct Hpow as [[E1 E2]|[E1 E2]]; rewrite E1, E2 in *; lia ].
      f_equal. destruct Hpow as [[-> _]|[-> _]];
        [ rewrite (int64_small (2 ^ 31)) by lia; apply int64_small; lia
        | rewrite int64_min; reflexivity ].
  - destruct (unsigned_literal_no_sign _ _ _ H) as [-> _].
    rewrite (ParseUint0_kind_literal _ v bits Hbits H), Hcut.
    pose proof (unsigned_literal_nonneg _ _ H) as Hv0.
    destruct (Z.ltb_spec v (- 2 ^ (bits - 1)));
      [ destruct Hpow as [[E1 E2]|[E1 E2]]; rewrite E1 in *; lia | ].
    destruct (Z.leb_spec v (max_unsigned bits)) as [Hle|Hgt]; cbn [negb andb].
    + destruct (Z.geb_spec v (2 ^ (bits - 1))) as [Hbig|Hfit].
      * destruct (Z.gtb_spec v (2 ^ (bits - 1) - 1)); [ | lia ].
        f_equal. apply int64_small.
        destruct Hpow as [[E _]|[E _]]; rewrite E; lia.
      * destruct (Z.gtb_spec v (2 ^ (bits - 1) - 1)); [ lia | ].
        f_equal. apply int64_small.
        destruct Hpow as [[E _]|[E _]]; rewrite E in *; lia.
    + destruct (Z.geb_spec (max_unsigned bits) (2 ^ (bits - 1))) as [_|Hno];
        [ | destruct Hpow as [[E1 E2]|[E1 E2]]; rewrite E1, E2 in *; lia ].
      destruct (Z.gtb_spec v (2 ^ (bits - 1) - 1));
        [ | destruct Hpow as [[E1 E2]|[E1 E2]]; rewrite E1, E2 in *; lia ].
      f_equal. apply int64_small.
      destruct Hpow as [[E _]|[E _]]; rewrite E; lia.
Qed.

Lemma IntSize_cases {arch : Arch} : IntSize' = 32 \/ IntSize' = 64.
Proof. unfold IntSize'. destruct platform; [ now left | now right ]. Qed.

Lemma to_int_in_range {arch : Arch} (v : Z) :
  min_signed IntSize' <= v <= max_signed IntSize' -> to_int v = v.
Proof.
  unfold to_int, strconv.wrap_signed, min_signed, max_signed.
  destruct IntSize_cases as [->| ->]; intros H.
  - change (2 ^ (32 - 1)) with 2147483648 in *. change (2 ^ 32) with 4294967296.
    rewrite Z.mod_small; lia.
  - change (2 ^ (64 - 1)) with 9223372036854775808 in *.
    change (2 ^ 64) with 18446744073709551616.
    rewrite Z.mod_small; lia.
Qed.

Lemma to_uint_in_range {arch : Arch} (v : Z) :
  0 <= v <= max_unsigned IntSize' -> to_uint v = v.
Proof.
  unfold to_uint, strconv.wrap_unsigned, max_unsigned.
  destruct IntSize_cases as [->| ->]; intros H; rewrite Z.mod_small; lia.
Qed.

Lemma range_bounds (bits : Z) :
  bits = 32 \/ bits = 64 ->
  min_signed bits < 0 /\ 0 < max_signed bits /\ 0 < max_unsigned bits.
Proof. intros [->| ->]; vm_compute; auto. Qed.

(** What each integer kind does with a literal: the number it denotes is
    stored when the kind can hold it; otherwise the nearer boundary is
    stored and the range error returned. *)
Lemma intValue_Set_literal {arch : Arch} (p : loc) (s : string) (v : Z) (st : Store) :
  signed_literal s = Some v ->
  Value_Set (intValue p) s st =
    (<[p := NInt (clamp_signed IntSize' v)]> st,
     if (v <? min_signed IntSize') || (v >? max_signed IntSize')
     then Some (strconv.rangeError "ParseInt" s) else None).
Proof.
  intros H. cbn [Value_Set intValue]. unfold intValue_Set, clamp_signed.
  rewrite (ParseInt0_literal s v _ IntSize_cases H).
  destruct (range_bounds _ IntSize_cases) as (Hmin & Hmax & _).
  destruct (Z.ltb_spec v (min_signed IntSize')); cbn [orb].
  - rewrite to_int_in_range by lia. reflexivity.
  - destruct (Z.gtb_spec v (max_signed IntSize')).
    + rewrite to_int_in_range by lia. reflexivity.
    + rewrite to_int_in_range by lia. reflexivity.
Qed.

Lemma int64Value_Set_literal (p : loc) (s : string) (v : Z) (st : Store) :
  signed_literal s = Some v ->
  Value_Set (int64Value p) s st =
    (<[p := NInt64 (clamp_signed 64 v)]> st,
     if (v <? min_signed 64) || (v >? max_signed 64)
     then Some (strconv.rangeError "ParseInt" s) else None).
Proof.
  intros H. cbn [Value_Set int64Value]. unfold int64Value_Set, clamp_signed.
  rewrite (ParseInt0_literal s v 64 ltac:(now right) H).
  destruct (Z.ltb_spec v (min_signed 64)); cbn [orb]; [ reflexivity | ].
  destruct (Z.gtb_spec v (max_signed 64)); reflexivity.
Qed.

Lemma uintValue_Set_literal {arch : Arch} (p : loc) (s : string) (v : Z) (st : Store) :
  unsigned_literal s = Some v ->
  Value_Set (uintValue p) s st =
    (<[p := NUint (clamp_unsigned IntSize' v)]> st,
     if v >? max_unsigned IntSize'
     then Some (strconv.rangeError "ParseUint" s) else None).
Proof.
  intros H. cbn [Value_Set uintValue].
  unfold uintValue_Set, clamp_unsigned, strconv.ParseUint0.
  rewrite (ParseUint0_kind_literal s v _ IntSize_cases H).
  destruct (range_bounds _ IntSize_cases) as (_ & _ & Hmax).
  pose proof (unsigned_literal_nonneg _ _ H) as Hv.
  destruct (Z.leb_spec v (max_unsigned IntSize'));
    destruct (Z.gtb_spec v (max_unsigned IntSize')); try lia;
    rewrite to_uint_in_range by lia; reflexivity.
Qed.

Lemma uint64Value_Set_literal (p : loc) (s : string) (v : Z) (st : Store) :
  unsigned_literal s = Some v ->
  Value_Set (uint64Value p) s st =
    (<[p := NUint64 (clamp_unsigned 64 v)]> st,
     if v >? max_unsigned 64
     then Some (strconv.rangeError "ParseUint" s) else None).
Proof.
  intros H. cbn [Value_Set uint64Value].
  unfold uint64Value_Set, clamp_unsigned, strconv.ParseUint0.
  rewrite (ParseUint0_kind_literal s v 64 ltac:(now right) H).
  destruct (Z.leb_spec v (max_unsigned 64));
    destruct (Z.gtb_spec v (max_unsigned 64)); try lia; reflexivity.
Qed.

(** C8. For each of the four integer kinds, [Set] on a literal whose
    number is outside the range of the kind fails with the range error;
    [2147483648] fails for [int] where it is 32 bits wide and succeeds,
    with that number, for [int64]. *)
Theorem integer_kinds_reject_overflow {arch : Arch}
    (p : loc) (s : string) (v : Z) (st : Store) :
  (signed_literal s = Some v ->
   v < min_signed IntSize' \/ max_signed IntSize' < v ->
   (Value_Set (intValue p) s st).2 = Some (strconv.rangeError "ParseInt" s)) /\
  (signed_literal s = Some v ->
   v < min_signed 64 \/ max_signed 64 < v ->
   (Value_Set (int64Value p) s st).2 = Some (strconv.rangeError "ParseInt" s)) /\
  (unsigned_literal s = Some v ->
   max_unsigned IntSize' < v ->
   (Value_Set (uintValue p) s st).2 = Some (strconv.rangeError "ParseUint" s)) /\
  (unsigned_literal s = Some v ->
   max_unsigned 64 < v ->
   (Value_Set (uint64Value p) s st).2 = Some (strconv.rangeError "ParseUint" s)) /\
  (platform = strconv.P32 ->
   (Value_Set (intValue p) "2147483648" st).2 =
     Some (strconv.rangeError "ParseInt" "2147483648")) /\
  Value_Set (int64Value p) "2147483648" st = (<[p := NInt64 2147483648]> st, None).
Proof.
  split; [ | split; [ | split; [ | split; [ | split ] ] ] ].
  - intros H Hout. rewrite (intValue_Set_literal p s v st H). cbn [snd].
    destruct (Z.ltb_spec v (min_signed IntSize')); [ reflexivity | ].
    destruct (Z.gtb_spec v (max_signed IntSize')); [ reflexivity | lia ].
  - intros H Hout. rewrite (int64Value_Set_literal p s v st H). cbn [snd].
    destruct (Z.ltb_spec v (min_signed 64)); [ reflexivity | ].
    destruct (Z.gtb_spec v (max_signed 64)); [ reflexivity | lia ].
  - intros H Hout. rewrite (uintValue_Set_literal p s v st H). cbn [snd].
    destruct (Z.gtb_spec v (max_unsigned IntSize')); [ reflexivity | lia ].
  - intros H Hout. rewrite (uint64Value_Set_literal p s v st H). cbn [snd].
    destruct (Z.gtb_spec v (max_unsigned 64)); [ reflexivity | lia ].
  - intros H32. cbn [Value_Set intValue]. unfold intValue_Set, IntSize'.
    rewrite H32. reflexivity.
  - reflexivity.
Qed.

Lemma integer_kinds_reject_overflow_witness :
  (Value_Set (@intValue arch32 0%nat) "-0x80000001" ∅).2 =
    Some (strconv.rangeError "ParseInt" "-0x80000001") /\
  (Value_Set (@uintValue arch32 0%nat) "4294967296" ∅).2 =
    Some (strconv.rangeError "ParseUint" "4294967296") /\
  (Value_Set (@intValue arch32 0%nat) "2147483648" ∅).2 =
    Some (strconv.rangeError "ParseInt" "2147483648").
Proof.
  split; [ | split ].
  - apply (@integer_kinds_reject_overflow arch32 0%nat "-0x80000001" (-2147483649) ∅).
    + reflexivity.
    + left. vm_compute. reflexivity.
  - apply (@integer_kinds_reject_overflow arch32 0%nat "4294967296" 4294967296 ∅).
    + reflexivity.
    + vm_compute. reflexivity.
  - apply (@integer_kinds_reject_overflow arch32 0%nat "" 0 ∅). reflexivity.
Defined.

(* ================================================================== *)
(** * What a failing [Set] leaves in the variable *)

(** C10. For the bool and numeric kinds [Set] writes what the parser
    returned into the bound variable before it returns the parser's
    error: a token that is no boolean writes [false], an integer literal
    out of range writes the boundary it was clamped to.  Through the set's
    [Set] the error reaches the caller and [actual] is left as it was, but
    the variable holds the parser's result, not its previous value. *)
Theorem failed_Set_overwrites {arch : Arch} {lib : GoLib}
    (p : loc) (s : string) (st : Store) :
  (Value_Set (boolValue p) s st =
     (<[p := NBool (strconv.ParseBool s).1]> st, (strconv.ParseBool s).2) /\
   Value_Set (intValue p) s st =
     (<[p := NInt (to_int (strconv.ParseInt0 s IntSize').1)]> st,
      (strconv.ParseInt0 s IntSize').2) /\
   Value_Set (int64Value p) s st =
     (<[p := NInt64 (strconv.ParseInt0 s 64).1]> st, (strconv.ParseInt0 s 64).2) /\
   Value_Set (uintValue p) s st =
     (<[p := NUint (to_uint (strconv.ParseUint0 s IntSize').1)]> st,
      (strconv.ParseUint0 s IntSize').2) /\
   Value_Set (uint64Value p) s st =
     (<[p := NUint64 (strconv.ParseUint0 s 64).1]> st, (strconv.ParseUint0 s 64).2) /\
   Value_Set (float64Value p) s st =
     (<[p := NFloat64 (ParseFloat64 s).1]> st, (ParseFloat64 s).2)) /\
  (~ In s (true_tokens ++ false_tokens) ->
   Value_Set (boolValue p) s st =
     (<[p := NBool false]> st, Some (strconv.syntaxError "ParseBool" s))) /\
  (forall v, signed_literal s = Some v ->
     (v < min_signed IntSize' \/ max_signed IntSize' < v ->
      Value_Set (intValue p) s st =
        (<[p := NInt (clamp_signed IntSize' v)]> st,
         Some (strconv.rangeError "ParseInt" s))) /\
     (v < min_signed 64 \/ max_signed 64 < v ->
      Value_Set (int64Value p) s st =
        (<[p := NInt64 (clamp_signed 64 v)]> st,
         Some (strconv.rangeError "ParseInt" s)))) /\
  (forall v, unsigned_literal s = Some v ->
     (max_unsigned IntSize' < v ->
      Value_Set (uintValue p) s st =
        (<[p := NUint (max_unsigned IntSize')]> st,
         Some (strconv.rangeError "ParseUint" s))) /\
     (max_unsigned 64 < v ->
      Value_Set (uint64Value p) s st =
        (<[p := NUint64 (max_unsigned 64)]> st,
         Some (strconv.rangeError "ParseUint" s)))) /\
  (forall evs wd name envVar st' err,
     map_get (formal evs) name = Some envVar ->
     Value_Set (EnvVar_Value envVar) s (store wd) = (st', Some err) ->
     (Set_ name s (evs, wd)).1 = Returned (Some err) /\
     actual (Set_ name s (evs, wd)).2.1 = actual evs /\
     store (Set_ name s (evs, wd)).2.2 = st').
Proof.
  split; [ | split; [ | split; [ | split ] ] ].
  - cbn [Value_Set boolValue intValue int64Value uintValue uint64Value float64Value].
    unfold boolValue_Set, intValue_Set, int64Value_Set, uintValue_Set,
      uint64Value_Set, float64Value_Set.
    repeat split;
      match goal with |- context [let '(_, _) := ?x in _] => now destruct x end.
  - intros H. cbn [Value_Set boolValue]. unfold boolValue_Set.
    now rewrite (ParseBool_error s H).
  - intros v H. split; intros Hout.
    + rewrite (intValue_Set_literal p s v st H).
      destruct (Z.ltb_spec v (min_signed IntSize')); [ reflexivity | ].
      destruct (Z.gtb_spec v (max_signed IntSize')); [ reflexivity | lia ].
    + rewrite (int64Value_Set_literal p s v st H).
      destruct (Z.ltb_spec v (min_signed 64)); [ reflexivity | ].
      destruct (Z.gtb_spec v (max_signed 64)); [ reflexivity | lia ].
  - intros v H. split; intros Hout.
    + rewrite (uintValue_Set_literal p s v st H). unfold clamp_unsigned.
      destruct (Z.gtb_spec v (max_unsigned IntSize')); [ reflexivity | lia ].
    + rewrite (uint64Value_Set_literal p s v st H). unfold clamp_unsigned.
      destruct (Z.gtb_spec v (max_unsigned 64)); [ reflexivity | lia ].
  - intros evs wd nm envVar st' err Hf Hs.
    unfold Set_, call_Value_Set. rewrite Hf, Hs. cbn. auto.
Qed.

(** A boolean variable that holds [true] holds [false] after the failed
    [Set] of the text [maybe]; an [int] variable that holds 7 holds the
    largest 32-bit number after the failed [Set] of [2147483648]. *)
Lemma failed_Set_overwrites_witness :
  Value_Set (boolValue 0%nat) "maybe" {[ 0%nat := NBool true ]} =
    (<[0%nat := NBool false]> {[ 0%nat := NBool true ]},
     Some (strconv.syntaxError "ParseBool" "maybe")) /\
  Value_Set (@intValue arch32 0%nat) "2147483648" {[ 0%nat := NInt 7 ]} =
    (<[0%nat := NInt 2147483647]> {[ 0%nat := NInt 7 ]},
     Some (strconv.rangeError "ParseInt" "2147483648")).
Proof.
  split.
  - apply (@failed_Set_overwrites arch32 test_lib 0%nat "maybe"
             {[ 0%nat := NBool true ]}).
    cbn. intuition discriminate.
  - refine (proj1 (proj1 (proj2 (proj2 (@failed_Set_overwrites arch32 test_lib
             0%nat "2147483648" {[ 0%nat := NInt 7 ]}))) 2147483648 eq_refl) _).
    right. vm_compute. reflexivity.
Defined.

(* ================================================================== *)
(** * The test suite, replayed *)

Section Tests.
Import envvar_test.

(** [TestUserDefined] *)
Example TestUserDefined :
  let σ := (Init "test" ContinueOnError (NewEnvVarSet "" ContinueOnError), empty_world) in
  let σ := (Var (userVar 0%nat) "UV" σ).2 in
  let r := Parse ["UV=1"; "UV=2"; "UV=3"; "NOTDEFINED=something"] σ in
  r.1 = Returned None /\
  load_strings (store r.2.2) 0%nat = ["1"; "2"; "3"] /\
  Value_String (userVar 0%nat) (store r.2.2) = "[1 2 3]".
Proof. vm_compute. auto. Qed.

(** [TestUserDefinedBool] *)
Example TestUserDefinedBool :
  let σ := (Init "test" ContinueOnError (NewEnvVarSet "" ContinueOnError), empty_world) in
  let σ := (Var (boolEnvVar 0%nat) "B" σ).2 in
  let r := Parse ["B=1"; "B=t"; "B=T"; "B=TRUE"; "B=true"; "B=True"; "B=0";
                  "B=false"; "NOTDEFINED=something"] σ in
  r.1 = Returned None /\ load_int (store r.2.2) 0%nat = 6.
Proof. vm_compute. auto. Qed.

(** [TestEnvVarSetParse] *)
Example TestEnvVarSetParse :
  let σ := (NewEnvVarSet "test" ContinueOnError, empty_world) in
  let σ := (@BoolVar 0%nat "BOOL" false σ).2 in
  let σ := (@BoolVar 1%nat "BOOL2" false σ).2 in
  let σ := (@IntVar arch64 2%nat "INT" 0 σ).2 in
  let σ := (@Int64Var 3%nat "INT64" 0 σ).2 in
  let σ := (@UintVar arch64 4%nat "UINT" 0 σ).2 in
  let σ := (@Uint64Var 5%nat "UINT64" 0 σ).2 in
  let σ := (@StringVar 6%nat "STRING" "0" σ).2 in
  let σ := (@Float64Var test_lib 7%nat "FLOAT64" 0 σ).2 in
  let σ := (@DurationVar test_lib 8%nat "DURATION" 5000000000 σ).2 in
  let r := Parse ["BOOL=1"; "BOOL2=true"; "INT=22"; "INT64=0x23"; "UINT=24";
                  "UINT64=25"; "STRING=hello"; "FLOAT64=2718e28"; "DURATION=2m"] σ in
  Parsed σ.1 = false /\ r.1 = Returned None /\ Parsed r.2.1 = true /\
  (store r.2.2 : Store) =
    list_to_map [(0%nat, NBool true); (1%nat, NBool true); (2%nat, NInt 22);
                 (3%nat, NInt64 35); (4%nat, NUint 24); (5%nat, NUint64 25);
                 (6%nat, NString "hello"); (7%nat, NFloat64 5077088352781040847);
                 (8%nat, NDuration 120000000000)].
Proof. vm_compute. auto. Qed.

(** [TestIntEnvVarOverflow], where [strconv.IntSize] is 32 *)
Example TestIntEnvVarOverflow :
  let σ := (ResetForTesting "envvar.test", empty_world) in
  let σ := (@Int arch32 0%nat "i" 0 σ).2 in
  let σ := (@Uint arch32 1%nat "u" 0 σ).2 in
  (exists err, (Set_ "i" "2147483648" σ).1 = Returned (Some err)) /\
  (exists err, (Set_ "u" "4294967296" σ).1 = Returned (Some err)).
Proof. split; eexists; vm_compute; reflexivity. Qed.

End Tests.

(* ================================================================== *)
(** * Round trips through the canonical text

    For the kinds whose text is produced and read by exact arithmetic:
    bool, the four integer kinds and string.  The float64 and duration
    kinds go through the binary floating point of [strconv] and [time]. *)

Lemma digit_value_digit_char (d : Z) :
  0 <= d < 10 -> strconv.digit_value (strconv.digit_char d) = Some d.
Proof.
  intros H.
  assert (E : d = 0 \/ d = 1 \/ d = 2 \/ d = 3 \/ d = 4 \/ d = 5 \/ d = 6 \/
              d = 7 \/ d = 8 \/ d = 9) by lia.
  repeat destruct E as [->|E]; try subst d; reflexivity.
Qed.

Lemma digit_char_nonzero (d : Z) :
  0 < d < 10 -> Ascii.eqb (strconv.digit_char d) "0" = false.
Proof.
  intros H.
  assert (E : d = 1 \/ d = 2 \/ d = 3 \/ d = 4 \/ d = 5 \/ d = 6 \/
              d = 7 \/ d = 8 \/ d = 9) by lia.
  repeat destruct E as [->|E]; try subst d; reflexivity.
Qed.

(** The digits [formatBits] writes denote the number they were made of. *)
Lemma formatBits_loop_value (fuel : nat) : forall (u : Z) (buf : string),
  0 <= u < 10 ^ Z.of_nat fuel ->
  exists k, 0 <= k /\ forall acc,
    digits_value 10 (strconv.formatBits_loop fuel u buf) acc =
    digits_value 10 buf (acc * 10 ^ k + u).
Proof.
  induction fuel as [|fuel IH]; intros u buf Hu.
  - exists 0. split; [ lia | ]. intros acc. cbn [strconv.formatBits_loop].
    f_equal. change (10 ^ Z.of_nat 0) with 1 in Hu. rewrite Z.pow_0_r. lia.
  - cbn [strconv.formatBits_loop].
    destruct (Z.ltb_spec u 10) as [Hsmall|Hbig].
    + exists 1. split; [ lia | ]. intros acc. cbn [digits_value].
      rewrite digit_value_digit_char by lia.
      destruct (Z.ltb_spec u 10); [ | lia ].
      now rewrite Z.pow_1_r.
    + rewrite Nat2Z.inj_succ, Z.pow_succ_r in Hu by lia.
      destruct (IH (u / 10) (String (strconv.digit_char (u mod 10)) buf))
        as (k & Hk & Hval).
      { split; [ apply Z.div_pos; lia | apply Z.div_lt_upper_bound; lia ]. }
      exists (k + 1). split; [ lia | ]. intros acc.
      rewrite Hval. cbn [digits_value].
      pose proof (Z.mod_pos_bound u 10 ltac:(lia)) as Hmod.
      rewrite digit_value_digit_char by lia.
      destruct (Z.ltb_spec (u mod 10) 10); [ | lia ].
      f_equal. rewrite Z.pow_add_r, Z.pow_1_r by lia.
      pose proof (Z.div_mod u 10 ltac:(lia)). lia.
Qed.

(** A positive number is written without a leading zero. *)
Lemma formatBits_loop_head (fuel : nat) : forall (u : Z) (buf : string),
  0 < u < 10 ^ Z.of_nat fuel ->
  exists c rest,
    strconv.formatBits_loop fuel u buf = String c rest /\ Ascii.eqb c "0" = false.
Proof.
  induction fuel as [|fuel IH]; intros u buf Hu; [ cbn in Hu; lia | ].
  cbn [strconv.formatBits_loop].
  destruct (Z.ltb_spec u 10) as [Hsmall|Hbig].
  - eexists _, _. split; [ reflexivity | apply digit_char_nonzero; lia ].
  - rewrite Nat2Z.inj_succ, Z.pow_succ_r in Hu by lia.
    apply IH. split.
    + apply Z.div_str_pos; lia.
    + apply Z.div_lt_upper_bound; lia.
Qed.

Lemma unsigned_literal_FormatUint10 (u : Z) :
  0 <= u <= strconv.maxUint64 ->
  unsigned_literal (strconv.FormatUint10 u) = Some u.
Proof.
  intros Hu. unfold strconv.maxUint64 in Hu.
  destruct (Z.eq_dec u 0) as [->|Hne]; [ reflexivity | ].
  unfold strconv.FormatUint10.
  assert (Hfuel : 0 < u < 10 ^ Z.of_nat 20) by (change (10 ^ Z.of_nat 20) with (10 ^ 20); lia).
  destruct (formatBits_loop_head 20 u EmptyString Hfuel) as (c & rest & E & Hc).
  destruct (formatBits_loop_value 20 u EmptyString ltac:(lia)) as (k & _ & Hval).
  specialize (Hval 0). rewrite E in Hval |- *.
  unfold unsigned_literal. rewrite Hc, Hval. reflexivity.
Qed.

Lemma signed_literal_FormatInt10 (i : Z) :
  min_signed 64 <= i <= max_signed 64 ->
  signed_literal (strconv.FormatInt10 i) = Some i.
Proof.
  unfold min_signed, max_signed. change (2 ^ (64 - 1)) with (2 ^ 63). intros Hi.
  unfold strconv.FormatInt10.
  destruct (Z.ltb_spec i 0) as [Hneg|Hpos].
  - rewrite uint64_small by (unfold strconv.maxUint64; lia).
    cbn [signed_literal Ascii.eqb Bool.eqb].
    rewrite unsigned_literal_FormatUint10 by (unfold strconv.maxUint64; lia).
    cbn. f_equal. lia.
  - rewrite uint64_small by (unfold strconv.maxUint64; lia).
    pose proof (unsigned_literal_FormatUint10 i
                  ltac:(unfold strconv.maxUint64; lia)) as H.
    destruct (strconv.FormatUint10 i) as [|c rest] eqn:E; [ discriminate H | ].
    destruct (unsigned_literal_no_sign _ _ _ H) as [_ Hminus].
    unfold signed_literal. now rewrite Hminus.
Qed.

(** X17. For the bool, int, int64, uint, uint64 and string kinds:
    constructing with default [d], formatting and setting the text again
    succeeds and leaves the variable, and the whole store, as the
    construction left it. *)
Lemma round_trip_exact_kinds {arch : Arch} (p : loc) (st : Store) :
  (forall d : bool,
     round_trip (newBoolValue d p st) = (<[p := NBool d]> st, None)) /\
  (forall d : Z, min_signed IntSize' <= d <= max_signed IntSize' ->
     round_trip (newIntValue d p st) = (<[p := NInt d]> st, None)) /\
  (forall d : Z, min_signed 64 <= d <= max_signed 64 ->
     round_trip (newInt64Value d p st) = (<[p := NInt64 d]> st, None)) /\
  (forall d : Z, 0 <= d <= max_unsigned IntSize' ->
     round_trip (newUintValue d p st) = (<[p := NUint d]> st, None)) /\
  (forall d : Z, 0 <= d <= max_unsigned 64 ->
     round_trip (newUint64Value d p st) = (<[p := NUint64 d]> st, None)) /\
  (forall d : string,
     round_trip (newStringValue d p st) = (<[p := NString d]> st, None)).
Proof.
  assert (Hwide : min_signed 64 <= min_signed IntSize' /\
                  max_signed IntSize' <= max_signed 64 /\
                  max_unsigned IntSize' <= max_unsigned 64).
  { destruct IntSize_cases as [->| ->]; vm_compute; intuition discriminate. }
  split; [ | split; [ | split; [ | split; [ | split ] ] ] ]; intros d.
  - unfold round_trip, newBoolValue. cbn [Value_Set Value_String boolValue].
    unfold boolValue_Set, boolValue_String, load_bool.
    rewrite lookup_insert_eq. destruct d; cbn; now rewrite insert_insert_eq.
  - intros Hd. unfold round_trip, newIntValue.
    rewrite (intValue_Set_literal p _ d).
    + unfold clamp_signed.
      destruct (Z.ltb_spec d (min_signed IntSize')); [ lia | ].
      destruct (Z.gtb_spec d (max_signed IntSize')); [ lia | ].
      cbn. now rewrite insert_insert_eq.
    + cbn [Value_String intValue]. unfold intValue_String, load_int, strconv.Itoa.
      rewrite lookup_insert_eq.
      rewrite int64_small by (unfold min_signed, max_signed in *;
        change (2 ^ (64 - 1)) with (2 ^ 63) in *; lia).
      apply signed_literal_FormatInt10. lia.
  - intros Hd. unfold round_trip, newInt64Value.
    rewrite (int64Value_Set_literal p _ d).
    + unfold clamp_signed.
      destruct (Z.ltb_spec d (min_signed 64)); [ lia | ].
      destruct (Z.gtb_spec d (max_signed 64)); [ lia | ].
      cbn. now rewrite insert_insert_eq.
    + cbn [Value_String int64Value]. unfold int64Value_String, load_int64.
      rewrite lookup_insert_eq. now apply signed_literal_FormatInt10.
  - intros Hd. unfold round_trip, newUintValue.
    rewrite (uintValue_Set_literal p _ d).
    + unfold clamp_unsigned.
      destruct (Z.gtb_spec d (max_unsigned IntSize')); [ lia | ].
      now rewrite insert_insert_eq.
    + cbn [Value_String uintValue]. unfold uintValue_String, load_uint.
      rewrite lookup_insert_eq.
      assert (Hm : max_unsigned 64 = strconv.maxUint64) by reflexivity.
      rewrite uint64_small by lia.
      apply unsigned_literal_FormatUint10. lia.
  - intros Hd. unfold round_trip, newUint64Value.
    rewrite (uint64Value_Set_literal p _ d).
    + unfold clamp_unsigned.
      destruct (Z.gtb_spec d (max_unsigned 64)); [ lia | ].
      now rewrite insert_insert_eq.
    + cbn [Value_String uint64Value]. unfold uint64Value_String, load_uint64.
      rewrite lookup_insert_eq.
      assert (Hm : max_unsigned 64 = strconv.maxUint64) by reflexivity.
      rewrite uint64_small by lia.
      apply unsigned_literal_FormatUint10. lia.
  - unfold round_trip, newStringValue. cbn [Value_Set Value_String stringValue].
    unfold stringValue_Set, stringValue_String, load_string.
    now rewrite lookup_insert_eq, insert_insert_eq.
Qed.

(** For the float64 and duration kinds the package adds nothing to the
    library: the round trip holds for a default exactly when the library
    reads back the text it wrote for it. *)
Lemma round_trip_library_kinds {lib : GoLib} (p : loc) (st : Store) :
  (forall f : Z,
     round_trip (newFloat64Value f p st) =
       (<[p := NFloat64 (ParseFloat64 (FormatFloat_g f)).1]> st,
        (ParseFloat64 (FormatFloat_g f)).2)) /\
  (forall d : Z,
     round_trip (newDurationValue d p st) =
       (<[p := NDuration (ParseDuration (Duration_String d)).1]> st,
        (ParseDuration (Duration_String d)).2)).
Proof.
  split; intros x.
  - unfold round_trip, newFloat64Value. cbn [Value_Set Value_String float64Value].
    unfold float64Value_Set, float64Value_String, load_float64.
    rewrite lookup_insert_eq.
    destruct (ParseFloat64 (FormatFloat_g x)) as [v err]. cbn.
    now rewrite insert_insert_eq.
  - unfold round_trip, newDurationValue. cbn [Value_Set Value_String durationValue].
    unfold durationValue_Set, durationValue_String, load_duration.
    rewrite lookup_insert_eq.
    destruct (ParseDuration (Duration_String x)) as [v err]. cbn.
    now rewrite insert_insert_eq.
Qed.

(* ================================================================== *)
(** * Entries of the form [name=value] *)

Lemma string_app_inj_length (a a' b b' : string) :
  String.length a = String.length a' ->
  a +:+ b = a' +:+ b' -> a = a' /\ b = b'.
Proof.
  revert a'. induction a as [|c a IH]; intros [|c' a'] Hlen H;
    try discriminate Hlen.
  - now split.
  - change (String c (a +:+ b) = String c' (a' +:+ b')) in H.
    injection H as -> H. injection Hlen as Hlen.
    destruct (IH a' Hlen H) as [-> ->]. now split.
Qed.

Lemma splittable_name_length (name : string) :
  splittable_name name -> (1 <= String.length name)%nat.
Proof. intros [Hne _]. destruct name; [ contradiction | cbn; lia ]. Qed.

Lemma parseOne_split_entry (name value : string) :
  splittable_name name -> parseOne_split (entry name value) = (name, value).
Proof.
  intros Hname. pose proof (splittable_name_length name Hname) as Hlen.
  destruct Hname as [_ Hno]. unfold entry.
  set (s := name +:+ String "=" value).
  assert (E : String.get (String.length name) s = Some "="%char).
  { unfold s. change (String.length name) with (0 + String.length name)%nat.
    now rewrite <- append_correct2. }
  assert (Hfirst : forall j, (1 <= j < String.length name)%nat ->
            String.get j s <> Some "="%char).
  { intros j Hj. unfold s. rewrite <- append_correct1 by lia. apply Hno. lia. }
  rewrite (parseOne_split_found s (String.length name) Hlen E Hfirst).
  pose proof (get_split s _ _ E) as Hs.
  pose proof (get_lt_length s _ _ E) as Hlt.
  pose proof (length_substring_prefix s (String.length name) ltac:(lia)) as Hl.
  destruct (string_app_inj_length _ _ _ _ (eq_sym Hl) Hs) as [H1 H2].
  injection H2 as H2. now rewrite <- H1, <- H2.
Qed.

(** X1. Splitting undoes joining: the entry [name=value] is split back
    into [name] and [value], whatever bytes the value holds (['='] too,
    or none at all), when the name is not empty and has no ['='] after
    its first byte. *)
Theorem parseOne_split_joined (name value : string) :
  name <> EmptyString ->
  (forall j, (1 <= j)%nat -> String.get j name <> Some "="%char) ->
  parseOne_split (name +:+ String "=" value) = (name, value).
Proof. intros Hne Hno. now apply parseOne_split_entry. Qed.

Lemma parseOne_split_joined_witness :
  parseOne_split ("PATH" +:+ String "=" "a=b:c") = ("PATH", "a=b:c").
Proof.
  apply (parseOne_split_joined "PATH" "a=b:c"); [ discriminate | ].
  intros [|[|[|[|j]]]] Hj; cbn; try discriminate; lia.
Defined.

(** X2. An entry for a registered string variable succeeds under every
    error policy: [Parse] returns no error, the variable holds the value
    byte for byte, the record is in [actual], the set is marked as parsed
    and nothing is printed. *)
Theorem Parse_string_entry (name value : string) (p : loc)
    (evs : EnvVarSet) (wd : World) :
  splittable_name name ->
  map_get (formal evs) name =
    Some {| Name := name; EnvVar_Value := stringValue p |} ->
  let r := Parse [entry name value] (evs, wd) in
  r.1 = Returned None /\
  load_string (store r.2.2) p = value /\
  map_get (actual r.2.1) name =
    Some {| Name := name; EnvVar_Value := stringValue p |} /\
  parsed r.2.1 = true /\
  written r.2.2 = written wd.
Proof.
  intros Hname Hf r. unfold r, Parse. cbn [Parse_loop].
  unfold parseOne. rewrite (parseOne_split_entry name value Hname).
  cbn [with_parsed formal]. rewrite Hf.
  unfold call_Value_Set. cbn.
  split; [ reflexivity | ]. split.
  - unfold load_string. now rewrite lookup_insert_eq.
  - split; [ apply lookup_insert_eq | now split ].
Qed.

Lemma Parse_string_entry_witness :
  let ev := {| Name := "HOME"; EnvVar_Value := stringValue 0%nat |} in
  let evs := with_formal (NewEnvVarSet "" ExitOnError) (Some {[ "HOME" := ev ]}) in
  load_string (store (Parse [entry "HOME" ""] (evs, empty_world)).2.2) 0%nat = "".
Proof.
  intros ev evs.
  refine (proj1 (proj2 (Parse_string_entry "HOME" "" 0%nat evs empty_world _ _))).
  - split; [ discriminate | ].
    intros [|[|[|[|j]]]] Hj; cbn; try discriminate; lia.
  - reflexivity.
Defined.

(** X3. A [Parse] entry and a direct [Set] do the same to the set and to
    the variables: for a registered name they leave the same set, store
    and call history, and one succeeds exactly when the other does.  They
    differ in the failure: [Set] returns the value's error as it is and
    prints nothing, the entry returns it wrapped with the value and the
    name and prints it.  For a name that is not registered [Set] returns
    an error and the entry is skipped. *)
Theorem parseOne_agrees_with_Set (name value : string) (σ : State) :
  splittable_name name ->
  (parseOne (entry name value) σ).2.1 = (Set_ name value σ).2.1 /\
  store (parseOne (entry name value) σ).2.2 = store (Set_ name value σ).2.2 /\
  history (parseOne (entry name value) σ).2.2 = history (Set_ name value σ).2.2 /\
  (is_Some (map_get (formal σ.1) name) ->
   ((parseOne (entry name value) σ).1 = None <->
    (Set_ name value σ).1 = Returned None) /\
   (forall cause, (Set_ name value σ).1 = Returned (Some cause) ->
      (parseOne (entry name value) σ).1 = Some (fmtErrorf_invalid value name cause) /\
      written (parseOne (entry name value) σ).2.2 =
        written σ.2 ++ [(out σ.1, PrintError (fmtErrorf_invalid value name cause))])) /\
  (map_get (formal σ.1) name = None ->
   (parseOne (entry name value) σ).1 = None /\
   exists err, (Set_ name value σ).1 = Returned (Some err)) /\
  written (Set_ name value σ).2.2 = written σ.2 /\
  (forall envVar st cause,
     map_get (formal σ.1) name = Some envVar ->
     Value_Set (EnvVar_Value envVar) value (store σ.2) = (st, Some cause) ->
     (Set_ name value σ).1 = Returned (Some cause) /\
     (parseOne (entry name value) σ).1 = Some (fmtErrorf_invalid value name cause) /\
     store (Set_ name value σ).2.2 = st) /\
  (forall envVar st,
     map_get (formal σ.1) name = Some envVar ->
     Value_Set (EnvVar_Value envVar) value (store σ.2) = (st, None) ->
     (Set_ name value σ).1 = Returned None /\
     (parseOne (entry name value) σ).1 = None /\
     store (Set_ name value σ).2.2 = st /\
     written (parseOne (entry name value) σ).2.2 = written σ.2) /\
  (map_get (formal σ.1) name = None ->
   Set_ name value σ =
     (Returned (Some (errorString ("no such environment variable " +:+ name))), σ) /\
   parseOne (entry name value) σ = (None, σ)).
Proof.
  intros Hname. destruct σ as [evs wd].
  unfold parseOne, Set_. rewrite (parseOne_split_entry name value Hname).
  unfold call_Value_Set, failf. cbn [fst snd].
  destruct (map_get (formal evs) name) as [ev|].
  - destruct (Value_Set (EnvVar_Value ev) value (store wd))
      as [st [err|]] eqn:Hs; cbn.
    + split; [ reflexivity | ]. split; [ reflexivity | ].
      split; [ reflexivity | ]. split.
      * intros _. split; [ split; discriminate | ].
        intros cause [= <-]. now split.
      * split; [ discriminate | ]. split; [ reflexivity | ].
        split; [ | split; [ | discriminate ] ].
        -- intros ev' st' cause [= <-] H. rewrite Hs in H.
           injection H as <- <-. auto.
        -- intros ev' st' [= <-] H. rewrite Hs in H. discriminate H.
    + split; [ reflexivity | ]. split; [ reflexivity | ].
      split; [ reflexivity | ]. split.
      * intros _. split; [ now split | discriminate ].
      * split; [ discriminate | ]. split; [ reflexivity | ].
        split; [ | split; [ | discriminate ] ].
        -- intros ev' st' cause [= <-] H. rewrite Hs in H. discriminate H.
        -- intros ev' st' [= <-] H. rewrite Hs in H. injection H as <-. auto.
  - cbn. split; [ reflexivity | ]. split; [ reflexivity | ].
    split; [ reflexivity | ]. split.
    + intros [? [=]].
    + split; [ intros _; split; [ reflexivity | eauto ] | ].
      split; [ reflexivity | ]. split; [ discriminate | ].
      split; [ discriminate | ]. intros _. now split.
Qed.

Lemma parseOne_agrees_with_Set_witness :
  (parseOne (entry "DEBUG" "perhaps")
     (with_formal (NewEnvVarSet "" ContinueOnError)
        (Some {[ "DEBUG" := {| Name := "DEBUG"; EnvVar_Value := boolValue 0%nat |} ]}),
      empty_world)).2.1 =
  (Set_ "DEBUG" "perhaps"
     (with_formal (NewEnvVarSet "" ContinueOnError)
        (Some {[ "DEBUG" := {| Name := "DEBUG"; EnvVar_Value := boolValue 0%nat |} ]}),
      empty_world)).2.1.
Proof.
  refine (proj1 (parseOne_agrees_with_Set "DEBUG" "perhaps" _ _)).
  split; [ discriminate | ].
  intros [|[|[|[|[|j]]]]] Hj; cbn; try discriminate; lia.
Defined.

(* ================================================================== *)
(** * [Parse] under the other policies *)

(** What the loop does at the first failing entry, by policy. *)
Lemma Parse_loop_failure (pre post : list string) (e : string) (err : error)
    (σ σ1 : State) :
  all_accepted pre σ ->
  parseOne e (parse_entries pre σ) = (Some err, σ1) ->
  Parse_loop (pre ++ e :: post) σ =
    if errorHandling σ.1 =? ContinueOnError then (Returned (Some err), σ1)
    else if errorHandling σ.1 =? ExitOnError then (Exited 2, σ1)
    else if errorHandling σ.1 =? PanicOnError then (Panicked (PanicError err), σ1)
    else Parse_loop post σ1.
Proof.
  intros Hok E. rewrite Parse_loop_accepted by assumption.
  cbn [Parse_loop]. rewrite E.
  pose proof (parseOne_fields e (parse_entries pre σ)) as (_ & _ & _ & H & _).
  rewrite E in H. cbn in H. rewrite H, parse_entries_errorHandling. reflexivity.
Qed.

(** X4. Under [ExitOnError], [Parse] ends the process with status 2 at
    the first entry whose conversion fails, in the state that entry left
    (the error has been printed, later entries are not looked at); it
    returns only when no entry fails, and then without error. *)
Theorem Parse_ExitOnError (evs : EnvVarSet) (wd : World) (environment : list string) :
  errorHandling evs = ExitOnError ->
  let σ0 := (with_parsed evs true, wd) in
  (forall pre e post err,
     environment = pre ++ e :: post ->
     all_accepted pre σ0 ->
     (parseOne e (parse_entries pre σ0)).1 = Some err ->
     Parse environment (evs, wd) = (Exited 2, (parseOne e (parse_entries pre σ0)).2)) /\
  (all_accepted environment σ0 ->
     Parse environment (evs, wd) = (Returned None, parse_entries environment σ0)) /\
  (forall r, (Parse environment (evs, wd)).1 = Returned r ->
     r = None /\ all_accepted environment σ0).
Proof.
  intros Hpol σ0.
  assert (Hfail : forall pre e post err,
            environment = pre ++ e :: post ->
            all_accepted pre σ0 ->
            (parseOne e (parse_entries pre σ0)).1 = Some err ->
            Parse environment (evs, wd) =
              (Exited 2, (parseOne e (parse_entries pre σ0)).2)).
  { intros pre e post err -> Hok He. unfold Parse.
    change (with_parsed evs true, wd) with σ0.
    destruct (parseOne e (parse_entries pre σ0)) as [r σ1] eqn:E.
    cbn in He. subst r.
    rewrite (Parse_loop_failure pre post e err σ0 σ1 Hok E).
    unfold σ0. cbn [fst with_parsed errorHandling]. now rewrite Hpol. }
  split; [ exact Hfail | ]. split.
  - intros Hok. unfold Parse. now apply Parse_loop_all_accepted.
  - intros r Hr.
    destruct (all_accepted_or_first_failure environment σ0)
      as [Hok | (pre & e & post & err & Henv & Hok & He)].
    + unfold Parse in Hr. change (with_parsed evs true, wd) with σ0 in Hr.
      rewrite (Parse_loop_all_accepted _ _ Hok) in Hr. now injection Hr as <-.
    + rewrite (Hfail pre e post err Henv Hok He) in Hr. discriminate Hr.
Qed.

Lemma Parse_ExitOnError_witness :
  let evs := with_formal (EnvVars "cmd")
               (Some {[ "DEBUG" := {| Name := "DEBUG"; EnvVar_Value := boolValue 0%nat |} ]}) in
  (Parse ["HOME=/root"; "DEBUG=perhaps"; "DEBUG=1"] (evs, empty_world)).1 = Exited 2.
Proof.
  intros evs.
  destruct (Parse_ExitOnError evs empty_world
              ["HOME=/root"; "DEBUG=perhaps"; "DEBUG=1"] eq_refl) as [Hfail _].
  rewrite (Hfail ["HOME=/root"] "DEBUG=perhaps" ["DEBUG=1"]
             (fmtErrorf_invalid "perhaps" "DEBUG"
                (strconv.syntaxError "ParseBool" "perhaps")) eq_refl).
  - reflexivity.
  - vm_compute. tauto.
  - vm_compute. reflexivity.
Defined.

(** X5. Under [PanicOnError], [Parse] panics with the error of the first
    entry whose conversion fails, in the state that entry left; it returns
    only when no entry fails, and then without error. *)
Theorem Parse_PanicOnError (evs : EnvVarSet) (wd : World) (environment : list string) :
  errorHandling evs = PanicOnError ->
  let σ0 := (with_parsed evs true, wd) in
  (forall pre e post err,
     environment = pre ++ e :: post ->
     all_accepted pre σ0 ->
     (parseOne e (parse_entries pre σ0)).1 = Some err ->
     Parse environment (evs, wd) =
       (Panicked (PanicError err), (parseOne e (parse_entries pre σ0)).2)) /\
  (forall r, (Parse environment (evs, wd)).1 = Returned r ->
     r = None /\ all_accepted environment σ0).
Proof.
  intros Hpol σ0.
  assert (Hfail : forall pre e post err,
            environment = pre ++ e :: post ->
            all_accepted pre σ0 ->
            (parseOne e (parse_entries pre σ0)).1 = Some err ->
            Parse environment (evs, wd) =
              (Panicked (PanicError err), (parseOne e (parse_entries pre σ0)).2)).
  { intros pre e post err -> Hok He. unfold Parse.
    change (with_parsed evs true, wd) with σ0.
    destruct (parseOne e (parse_entries pre σ0)) as [r σ1] eqn:E.
    cbn in He. subst r.
    rewrite (Parse_loop_failure pre post e err σ0 σ1 Hok E).
    unfold σ0. cbn [fst with_parsed errorHandling]. now rewrite Hpol. }
  split; [ exact Hfail | ].
  intros r Hr.
  destruct (all_accepted_or_first_failure environment σ0)
    as [Hok | (pre & e & post & err & Henv & Hok & He)].
  - unfold Parse in Hr. change (with_parsed evs true, wd) with σ0 in Hr.
    rewrite (Parse_loop_all_accepted _ _ Hok) in Hr. now injection Hr as <-.
  - rewrite (Hfail pre e post err Henv Hok He) in Hr. discriminate Hr.
Qed.

Lemma Parse_PanicOnError_witness :
  let evs := with_formal (NewEnvVarSet "cmd" PanicOnError)
               (Some {[ "DEBUG" := {| Name := "DEBUG"; EnvVar_Value := boolValue 0%nat |} ]}) in
  (Parse ["DEBUG=perhaps"] (evs, empty_world)).1 =
    Panicked (PanicError (fmtErrorf_invalid "perhaps" "DEBUG"
                            (strconv.syntaxError "ParseBool" "perhaps"))).
Proof.
  intros evs.
  destruct (Parse_PanicOnError evs empty_world ["DEBUG=perhaps"] eq_refl)
    as [Hfail _].
  rewrite (Hfail [] "DEBUG=perhaps" []
             (fmtErrorf_invalid "perhaps" "DEBUG"
                (strconv.syntaxError "ParseBool" "perhaps")) eq_refl).
  - reflexivity.
  - exact I.
  - vm_compute. reflexivity.
Defined.

(** X6. [ErrorHandling] is an integer type and the [switch] in [Parse]
    has no default: with a policy that is none of the three constants a
    failing entry is printed and otherwise passed over, every entry is
    processed and [Parse] returns no error. *)
Theorem Parse_unknown_policy (evs : EnvVarSet) (wd : World) (environment : list string) :
  errorHandling evs <> ContinueOnError ->
  errorHandling evs <> ExitOnError ->
  errorHandling evs <> PanicOnError ->
  Parse environment (evs, wd) =
    (Returned None, parse_entries environment (with_parsed evs true, wd)).
Proof.
  intros H0 H1 H2. unfold Parse.
  assert (H : forall σ, errorHandling σ.1 = errorHandling evs ->
            Parse_loop environment σ = (Returned None, parse_entries environment σ)).
  { induction environment as [|e environment IH]; intros σ Hσ; [ reflexivity | ].
    cbn [Parse_loop parse_entries foldl].
    pose proof (parseOne_fields e σ) as (_ & _ & _ & Hpol & _).
    destruct (parseOne e σ) as [[err|] σ1]; cbn [fst snd] in *.
    - rewrite Hpol, Hσ.
      destruct (Z.eqb_spec (errorHandling evs) ContinueOnError); [ contradiction | ].
      destruct (Z.eqb_spec (errorHandling evs) ExitOnError); [ contradiction | ].
      destruct (Z.eqb_spec (errorHandling evs) PanicOnError); [ contradiction | ].
      apply IH. congruence.
    - apply IH. congruence. }
  apply H. reflexivity.
Qed.

Lemma Parse_unknown_policy_witness :
  let evs := with_formal (NewEnvVarSet "cmd" 7)
               (Some {[ "DEBUG" := {| Name := "DEBUG"; EnvVar_Value := boolValue 0%nat |} ]}) in
  (Parse ["DEBUG=perhaps"; "DEBUG=1"] (evs, empty_world)).1 = Returned None.
Proof.
  intros evs.
  rewrite (Parse_unknown_policy evs empty_world ["DEBUG=perhaps"; "DEBUG=1"]);
    [ reflexivity | discriminate | discriminate | discriminate ].
Defined.

(* ================================================================== *)
(** * The [parsed] flag, the output and the top-level [Parse] *)

Lemma Parse_loop_fields (environment : list string) : forall σ,
  let evs' := (Parse_loop environment σ).2.1 in
  parsed evs' = parsed σ.1 /\ formal evs' = formal σ.1 /\
  output evs' = output σ.1 /\ errorHandling evs' = errorHandling σ.1 /\
  name evs' = name σ.1.
Proof.
  induction environment as [|e environment IH]; intros σ; [ cbn; tauto | ].
  cbn [Parse_loop].
  pose proof (parseOne_fields e σ) as (Hn & Hp & Hf & He & Ho).
  specialize (IH (parseOne e σ).2).
  destruct (parseOne e σ) as [[err|] σ1]; cbn [fst snd] in *.
  - repeat case_match; cbn [fst snd]; try tauto;
      destruct IH as (? & ? & ? & ? & ?); repeat split; congruence.
  - destruct IH as (? & ? & ? & ? & ?); repeat split; congruence.
Qed.

Lemma parsed_exec (op : Op) (σ : State) :
  parsed (exec op σ).1 = parsed σ.1 || is_Parse op.
Proof.
  destruct σ as [evs wd]. destruct op; cbn [exec is_Parse fst snd].
  - unfold Var. destruct (map_get (formal evs) name0); cbn; now rewrite orb_false_r.
  - unfold Set_, call_Value_Set. destruct (map_get (formal evs) name0) as [ev|];
      [ | cbn; now rewrite orb_false_r ].
    destruct (Value_Set (EnvVar_Value ev) value (store wd)) as [st [err|]];
      cbn; now rewrite orb_false_r.
  - unfold Parse.
    pose proof (Parse_loop_fields environment (with_parsed evs true, wd)) as [H _].
    rewrite H. cbn. now rewrite orb_true_r.
  - cbn. now rewrite orb_false_r.
  - cbn. now rewrite orb_false_r.
  - now rewrite orb_false_r.
Qed.

(** X7. [Parsed] reports whether [Parse] has been called: it is false on
    a new set, a call of [Parse] makes it true whatever the input (empty
    too) and however the call ends, and no other call changes it. *)
Theorem Parsed_iff_Parse_called (ops : list Op) (σ : State) :
  Parsed (run ops σ).1 = Parsed σ.1 || existsb is_Parse ops /\
  (forall name policy, Parsed (NewEnvVarSet name policy) = false) /\
  (forall environment, Parsed (Parse environment σ).2.1 = true).
Proof.
  split; [ | split ].
  - revert σ. induction ops as [|op ops IH]; intros σ; cbn [run foldl existsb].
    + now rewrite orb_false_r.
    + unfold run in IH. rewrite IH. unfold Parsed. rewrite parsed_exec.
      now rewrite orb_assoc.
  - reflexivity.
  - intros environment. unfold Parsed.
    pose proof (parsed_exec (OpParse environment) σ) as H. cbn in H.
    rewrite H. apply orb_true_r.
Qed.

Lemma parseOne_written (e : string) (σ : State) :
  written (parseOne e σ).2.2 =
    written σ.2 ++
    match (parseOne e σ).1 with
    | Some err => [(out σ.1, PrintError err)]
    | None => []
    end /\
  out (parseOne e σ).2.1 = out σ.1.
Proof.
  destruct σ as [evs wd]. unfold parseOne, call_Value_Set, failf, out.
  destruct (parseOne_split e) as [nm value].
  destruct (map_get (formal evs) nm) as [ev|];
    [ | cbn; now rewrite app_nil_r ].
  destruct (Value_Set (EnvVar_Value ev) value (store wd)) as [st [err|]]; cbn;
    [ now split | now rewrite app_nil_r ].
Qed.

Lemma accepted_entries_print_nothing (pre : list string) : forall σ,
  all_accepted pre σ ->
  written (parse_entries pre σ).2 = written σ.2 /\
  out (parse_entries pre σ).1 = out σ.1.
Proof.
  induction pre as [|e pre IH]; intros σ Hok; [ now split | ].
  destruct Hok as [He Hok]. cbn [parse_entries foldl].
  destruct (IH _ Hok) as [Hw Ho]. unfold parse_entries in *.
  rewrite Hw, Ho. destruct (parseOne_written e σ) as [Hw1 Ho1].
  rewrite Hw1, Ho1, He. now rewrite app_nil_r.
Qed.

(** The two ways a [Parse] can go. *)
Lemma Parse_cases (evs : EnvVarSet) (wd : World) (environment : list string) :
  let σ0 := (with_parsed evs true, wd) in
  (all_accepted environment σ0 /\
   Parse environment (evs, wd) = (Returned None, parse_entries environment σ0)) \/
  (exists pre e post err σ1,
     environment = pre ++ e :: post /\ all_accepted pre σ0 /\
     parseOne e (parse_entries pre σ0) = (Some err, σ1) /\
     Parse environment (evs, wd) =
       if errorHandling evs =? ContinueOnError then (Returned (Some err), σ1)
       else if errorHandling evs =? ExitOnError then (Exited 2, σ1)
       else if errorHandling evs =? PanicOnError then (Panicked (PanicError err), σ1)
       else Parse_loop post σ1).
Proof.
  intros σ0.
  destruct (all_accepted_or_first_failure environment σ0)
    as [Hok | (pre & e & post & err & -> & Hok & He)].
  - left. split; [ exact Hok | ]. unfold Parse. now apply Parse_loop_all_accepted.
  - right. destruct (parseOne e (parse_entries pre σ0)) as [r σ1] eqn:E.
    cbn in He. subst r. exists pre, e, post, err, σ1.
    repeat split; auto. unfold Parse.
    change (with_parsed evs true, wd) with σ0.
    now rewrite (Parse_loop_failure pre post e err σ0 σ1 Hok E).
Qed.

(** X8. Error messages go to the writer given to [SetOutput], to the
    standard error when there is none.  Under [ContinueOnError] a [Parse]
    that returns an error has printed exactly that error, once, and a
    [Parse] that returns success has printed nothing. *)
Theorem Parse_prints_returned_error (o : option Writer) (evs : EnvVarSet)
    (wd : World) (environment : list string) :
  errorHandling evs = ContinueOnError ->
  exists r,
    (Parse environment (SetOutput o evs, wd)).1 = Returned r /\
    written (Parse environment (SetOutput o evs, wd)).2.2 =
      written wd ++
      match r with
      | Some err => [(default Stderr o, PrintError err)]
      | None => []
      end.
Proof.
  intros Hpol.
  assert (Hout : out (SetOutput o evs) = default Stderr o)
    by (unfold out; destruct o; reflexivity).
  destruct (Parse_cases (SetOutput o evs) wd environment)
    as [[Hok ->] | (pre & e & post & err & σ1 & -> & Hok & E & ->)].
  - exists None. split; [ reflexivity | ]. cbn [snd].
    destruct (accepted_entries_print_nothing _ _ Hok) as [-> _].
    cbn. now rewrite app_nil_r.
  - cbn [SetOutput errorHandling]. rewrite Hpol. cbn.
    exists (Some err). split; [ reflexivity | ].
    destruct (accepted_entries_print_nothing _ _ Hok) as [Hw Ho].
    destruct (parseOne_written e (parse_entries pre (with_parsed (SetOutput o evs) true, wd)))
      as [Hw1 _].
    rewrite E in Hw1. cbn [fst snd] in Hw1. rewrite Hw1, Hw, Ho. cbn.
    unfold out. cbn. destruct o; reflexivity.
Qed.

Lemma Parse_prints_returned_error_witness :
  let evs := with_formal (NewEnvVarSet "cmd" ContinueOnError)
               (Some {[ "DEBUG" := {| Name := "DEBUG"; EnvVar_Value := boolValue 0%nat |} ]}) in
  exists r,
    (Parse ["DEBUG=perhaps"] (SetOutput (Some (CallerWriter 1)) evs, empty_world)).1 =
      Returned r /\
    written (Parse ["DEBUG=perhaps"]
               (SetOutput (Some (CallerWriter 1)) evs, empty_world)).2.2 =
      [] ++ match r with
            | Some err => [(CallerWriter 1, PrintError err)]
            | None => []
            end.
Proof.
  intros evs.
  apply (Parse_prints_returned_error (Some (CallerWriter 1)) evs empty_world
           ["DEBUG=perhaps"]).
  reflexivity.
Defined.

(** X9. The top-level [Parse] hands no result to its caller.  On a
    default set with [ContinueOnError], as [ResetForTesting] installs it,
    it returns whether or not a conversion failed, so a failure shows only
    in the output; with [ExitOnError], as the package installs it, it
    returns exactly when no entry fails and otherwise ends the process
    with status 2. *)
Theorem TopLevel_Parse_outcome (evs : EnvVarSet) (wd : World) (environ : list string) :
  (errorHandling evs = ContinueOnError ->
   (TopLevel.Parse environ (evs, wd)).1 = Returned tt) /\
  (errorHandling evs = ExitOnError ->
   (all_accepted environ (with_parsed evs true, wd) ->
    (TopLevel.Parse environ (evs, wd)).1 = Returned tt) /\
   (~ all_accepted environ (with_parsed evs true, wd) ->
    (TopLevel.Parse environ (evs, wd)).1 = Exited 2)).
Proof.
  unfold TopLevel.Parse.
  split; [ intros Hpol | intros Hpol; split; intros Hacc ];
    destruct (Parse_cases evs wd environ)
      as [[Hok ->] | (pre & e & post & err & σ1 & -> & Hok & E & ->)];
    rewrite ?Hpol; cbn; try reflexivity.
  - exfalso. clear -Hacc Hok E.
    revert Hacc Hok E. generalize (with_parsed evs true, wd).
    induction pre as [|x pre IH]; intros σ Hacc Hok E; cbn in *.
    + destruct Hacc as [Hacc _]. rewrite E in Hacc. discriminate Hacc.
    + destruct Hacc as [_ Hacc], Hok as [_ Hok]. now apply (IH _ Hacc Hok).
  - contradiction.
Qed.

Lemma TopLevel_Parse_outcome_witness :
  let evs := with_formal (ResetForTesting "cmd")
               (Some {[ "DEBUG" := {| Name := "DEBUG"; EnvVar_Value := boolValue 0%nat |} ]}) in
  (TopLevel.Parse ["DEBUG=perhaps"] (evs, empty_world)).1 = Returned tt.
Proof.
  intros evs.
  refine (proj1 (TopLevel_Parse_outcome evs empty_world ["DEBUG=perhaps"]) _).
  reflexivity.
Defined.

(* ================================================================== *)
(** * What the two maps keep *)

Lemma map_get_entries (m : option (gmap string EnvVar)) (n : string) :
  map_get m n = map_entries m !! n.
Proof. destruct m; [ reflexivity | cbn; now rewrite lookup_empty ]. Qed.

Lemma Var_formal (value : Value) (nm : string) (σ : State) (n : string) (ev : EnvVar) :
  map_get (formal σ.1) n = Some ev ->
  map_get (formal (Var value nm σ).2.1) n = Some ev.
Proof.
  destruct σ as [evs wd]. unfold Var. cbn [fst snd].
  destruct (map_get (formal evs) nm) eqn:Hf; cbn [fst snd]; [ auto | ].
  intros Hn. cbn [with_formal formal]. rewrite map_get_put.
  destruct (decide (nm = n)) as [->|]; [ congruence | exact Hn ].
Qed.

Lemma Set_formal (nm value : string) (σ : State) :
  formal (Set_ nm value σ).2.1 = formal σ.1.
Proof.
  destruct σ as [evs wd]. unfold Set_, call_Value_Set.
  destruct (map_get (formal evs) nm) as [ev|]; [ | reflexivity ].
  destruct (Value_Set (EnvVar_Value ev) value (store wd)) as [st [err|]]; reflexivity.
Qed.

Lemma Parse_formal (environment : list string) (σ : State) :
  formal (Parse environment σ).2.1 = formal σ.1.
Proof.
  destruct σ as [evs wd]. unfold Parse.
  now destruct (Parse_loop_fields environment (with_parsed evs true, wd))
    as (_ & -> & _).
Qed.

Lemma exec_formal (op : Op) (σ : State) (n : string) (ev : EnvVar) :
  map_get (formal σ.1) n = Some ev ->
  map_get (formal (exec op σ).1) n = Some ev.
Proof.
  destruct op; cbn [exec].
  - apply Var_formal.
  - now rewrite Set_formal.
  - now rewrite Parse_formal.
  - auto.
  - auto.
  - auto.
Qed.

Lemma run_formal (ops : list Op) : forall (σ : State) (n : string) (ev : EnvVar),
  map_get (formal σ.1) n = Some ev ->
  map_get (formal (run ops σ).1) n = Some ev.
Proof.
  induction ops as [|op ops IH]; intros σ n ev H; [ exact H | ].
  cbn. apply IH. now apply exec_formal.
Qed.

(** X10. A registration is for good: whatever calls follow, [Lookup] of
    a registered name keeps returning the record that [Var] made for it;
    no call removes or replaces it.  [Set] and [Parse] leave [formal] as
    it is. *)
Theorem registrations_are_kept (ops : list Op) (σ : State) :
  (forall n ev, Lookup σ.1 n = Some ev -> Lookup (run ops σ).1 n = Some ev) /\
  (forall name value, formal (Set_ name value σ).2.1 = formal σ.1) /\
  (forall environment, formal (Parse environment σ).2.1 = formal σ.1).
Proof.
  split; [ | split ].
  - intros n ev. unfold Lookup. apply run_formal.
  - intros nm value. apply Set_formal.
  - intros environment. apply Parse_formal.
Qed.

Lemma registrations_are_kept_witness :
  let ev := {| Name := "A"; EnvVar_Value := boolValue 0%nat |} in
  let σ := (with_formal (NewEnvVarSet "" ContinueOnError) (Some {[ "A" := ev ]}),
            empty_world) in
  Lookup (run [OpVar (boolValue 1%nat) "A"; OpParse ["A=x"]; OpSet "A" "1"] σ).1 "A" =
    Some ev.
Proof.
  intros ev σ.
  apply (registrations_are_kept
           [OpVar (boolValue 1%nat) "A"; OpParse ["A=x"]; OpSet "A" "1"] σ).
  reflexivity.
Defined.

Lemma reachable_run (ops : list Op) (σ : State) :
  reachable σ -> reachable (run ops σ).
Proof.
  intros (σ0 & ops0 & H0 & ->). exists σ0, (ops0 ++ ops).
  split; [ exact H0 | ]. unfold run. now rewrite foldl_app.
Qed.

Lemma Parse_loop_actual (environment : list string) (n : string) : forall σ,
  is_Some (map_get (actual σ.1) n) ->
  is_Some (map_get (actual (Parse_loop environment σ).2.1) n).
Proof.
  induction environment as [|e environment IH]; intros σ H; [ exact H | ].
  cbn [Parse_loop]. pose proof (parseOne_actual e σ n H) as H1.
  destruct (parseOne e σ) as [[err|] σ1]; cbn [fst snd] in *.
  - repeat case_match; auto.
  - auto.
Qed.

Lemma exec_actual (op : Op) (σ : State) (n : string) :
  is_Some (map_get (actual σ.1) n) ->
  is_Some (map_get (actual (exec op σ).1) n).
Proof.
  destruct σ as [evs wd]. destruct op; cbn [exec fst snd]; auto.
  - unfold Var. destruct (map_get (formal evs) name0); auto.
  - unfold Set_, call_Value_Set.
    destruct (map_get (formal evs) name0) as [ev|]; [ | auto ].
    destruct (Value_Set (EnvVar_Value ev) value (store wd)) as [st [err|]];
      cbn [fst snd]; [ auto | ].
    intros H. cbn [with_actual actual]. rewrite map_get_put.
    destruct (decide (name0 = n)); [ eauto | exact H ].
  - unfold Parse. intros H.
    apply (Parse_loop_actual environment n (with_parsed evs true, wd)). exact H.
Qed.

Lemma run_actual (ops : list Op) (n : string) : forall σ,
  is_Some (map_get (actual σ.1) n) ->
  is_Some (map_get (actual (run ops σ).1) n).
Proof.
  induction ops as [|op ops IH]; intros σ H; [ exact H | ].
  cbn. apply IH. now apply exec_actual.
Qed.

(** X11. A variable that has been set stays set: once a name is in
    [actual], no later call, a failing [Set] or [Parse] entry for it
    included, takes it out or binds it to another record. *)
Theorem assignments_are_kept (ops : list Op) (σ : State) (n : string) (ev : EnvVar) :
  reachable σ ->
  map_get (actual σ.1) n = Some ev ->
  map_get (actual (run ops σ).1) n = Some ev.
Proof.
  intros Hr Ha.
  destruct (Inv_reachable σ Hr) as [_ I2 _ _].
  destruct (Inv_reachable _ (reachable_run ops σ Hr)) as [_ I2' _ _].
  destruct (run_actual ops n σ ltac:(eauto)) as [ev' Hev'].
  pose proof (I2' _ _ Hev') as Hf'.
  pose proof (run_formal ops σ n ev (I2 _ _ Ha)) as Hf.
  congruence.
Qed.

Lemma assignments_are_kept_witness :
  let σ := run [OpVar (boolValue 0%nat) "A"; OpSet "A" "true"]
             (NewEnvVarSet "" ContinueOnError, empty_world) in
  map_get (actual (run [OpSet "A" "perhaps"; OpParse ["A=2"]] σ).1) "A" =
    Some {| Name := "A"; EnvVar_Value := boolValue 0%nat |}.
Proof.
  intros σ.
  apply (assignments_are_kept [OpSet "A" "perhaps"; OpParse ["A=2"]] σ).
  - eexists _, _. split; [ | reflexivity ].
    split; [ eexists _, _; reflexivity | reflexivity ].
  - reflexivity.
Defined.

(** X12. [Var] under a name that is not yet registered returns; from then
    on [Lookup] of the name gives the new record, every other [Lookup] is
    as before, the variable is not marked as set, and nothing is printed
    or written.  Registering the same name once more panics. *)
Theorem Var_registers (value : Value) (name : string) (evs : EnvVarSet) (wd : World) :
  map_get (formal evs) name = None ->
  let r := Var value name (evs, wd) in
  r.1 = Returned tt /\
  Lookup r.2.1 name = Some {| Name := name; EnvVar_Value := value |} /\
  (forall n, n <> name -> Lookup r.2.1 n = Lookup evs n) /\
  actual r.2.1 = actual evs /\
  r.2.2 = wd /\
  (forall value', exists msg, (Var value' name r.2).1 = Panicked (PanicString msg)).
Proof.
  intros Hf r. unfold r, Var. rewrite Hf. cbn [fst snd].
  assert (Hnew : map_get (formal (with_formal evs
                   (map_put (formal evs) name {| Name := name; EnvVar_Value := value |})))
                   name = Some {| Name := name; EnvVar_Value := value |}).
  { cbn [with_formal formal]. rewrite map_get_put. now rewrite decide_True. }
  split; [ reflexivity | ]. split; [ exact Hnew | ]. split.
  - intros n Hn. unfold Lookup. cbn [with_formal formal]. rewrite map_get_put.
    now rewrite decide_False by congruence.
  - split; [ reflexivity | ]. split; [ reflexivity | ].
    intros value'. rewrite Hnew. eauto.
Qed.

Lemma Var_registers_witness :
  Lookup (Var (boolValue 0%nat) "A" (NewEnvVarSet "" ContinueOnError, empty_world)).2.1 "A" =
    Some {| Name := "A"; EnvVar_Value := boolValue 0%nat |}.
Proof.
  refine (proj1 (proj2 (Var_registers (boolValue 0%nat) "A"
            (NewEnvVarSet "" ContinueOnError) empty_world _))).
  reflexivity.
Defined.

(** X13. [NEnvVar] counts the variables that have been set, not the
    registered ones: it is 0 on a new set, never more than the number of
    registered variables, grows by one when [Set] succeeds for a name that
    was not set before, and is unchanged when [Set] succeeds for a name
    that was, or fails. *)
Theorem NEnvVar_counts_set_variables (σ : State) :
  (forall name policy, NEnvVar (NewEnvVarSet name policy) = 0%nat) /\
  (reachable σ -> (NEnvVar σ.1 <= size (map_entries (formal σ.1)))%nat) /\
  (forall name value,
     (Set_ name value σ).1 = Returned None ->
     NEnvVar (Set_ name value σ).2.1 =
       match map_get (actual σ.1) name with
       | Some _ => NEnvVar σ.1
       | None => S (NEnvVar σ.1)
       end) /\
  (forall name value,
     (Set_ name value σ).1 <> Returned None ->
     NEnvVar (Set_ name value σ).2.1 = NEnvVar σ.1).
Proof.
  split; [ | split; [ | split ] ].
  - intros nm policy. unfold NEnvVar. cbn. apply map_size_empty.
  - intros Hr. destruct (Inv_reachable σ Hr) as [_ I2 _ _].
    unfold NEnvVar. apply map_subseteq_size, map_subseteq_spec.
    intros n ev Hn. rewrite <- map_get_entries in *. now apply I2.
  - intros nm value. destruct σ as [evs wd]. unfold Set_, call_Value_Set.
    destruct (map_get (formal evs) nm) as [ev|]; [ | discriminate ].
    destruct (Value_Set (EnvVar_Value ev) value (store wd)) as [st [err|]];
      [ discriminate | ].
    intros _. cbn [fst snd]. unfold NEnvVar. cbn [with_actual actual map_put map_entries].
    rewrite map_size_insert, <- map_get_entries.
    destruct (map_get (actual evs) nm); reflexivity.
  - intros nm value. destruct σ as [evs wd]. unfold Set_, call_Value_Set.
    destruct (map_get (formal evs) nm) as [ev|]; [ | reflexivity ].
    destruct (Value_Set (EnvVar_Value ev) value (store wd)) as [st [err|]];
      [ reflexivity | contradiction ].
Qed.

Lemma NEnvVar_counts_set_variables_witness :
  let σ := run [OpVar (boolValue 0%nat) "A"; OpVar (boolValue 1%nat) "B";
                OpSet "A" "true"]
             (NewEnvVarSet "" ContinueOnError, empty_world) in
  (NEnvVar σ.1 <= size (map_entries (formal σ.1)))%nat /\
  NEnvVar (Set_ "B" "0" σ).2.1 = S (NEnvVar σ.1).
Proof.
  intros σ.
  destruct (NEnvVar_counts_set_variables σ) as (_ & Hle & Hset & _).
  split.
  - apply Hle. eexists _, _. split; [ | reflexivity ].
    split; [ eexists _, _; reflexivity | reflexivity ].
  - exact (Hset "B" "0" eq_refl).
Defined.

Lemma round_trip_exact_kinds_witness :
  round_trip (@newIntValue arch32 (-2147483648) 0%nat ∅) =
    (<[0%nat := NInt (-2147483648)]> ∅, None) /\
  round_trip (newUint64Value 18446744073709551615 0%nat ∅) =
    (<[0%nat := NUint64 18446744073709551615]> ∅, None).
Proof.
  destruct (@round_trip_exact_kinds arch32 0%nat ∅) as (_ & Hint & _ & _ & Hu64 & _).
  split.
  - apply Hint. vm_compute. split; discriminate.
  - apply Hu64. vm_compute. split; discriminate.
Defined.

(* ================================================================== *)
(** * The built-in kinds *)

(** X14. [Set] of a built-in kind writes the variable it is bound to and
    no other: every other variable of the store is as before, whether the
    conversion succeeds or fails. *)
Theorem builtin_Set_writes_own_variable {arch : Arch} {lib : GoLib}
    (p q : loc) (s : string) (st : Store) :
  q <> p ->
  (Value_Set (boolValue p) s st).1 !! q = st !! q /\
  (Value_Set (intValue p) s st).1 !! q = st !! q /\
  (Value_Set (int64Value p) s st).1 !! q = st !! q /\
  (Value_Set (uintValue p) s st).1 !! q = st !! q /\
  (Value_Set (uint64Value p) s st).1 !! q = st !! q /\
  (Value_Set (stringValue p) s st).1 !! q = st !! q /\
  (Value_Set (float64Value p) s st).1 !! q = st !! q /\
  (Value_Set (durationValue p) s st).1 !! q = st !! q.
Proof.
  intros Hq.
  cbn [Value_Set boolValue intValue int64Value uintValue uint64Value
       stringValue float64Value durationValue].
  unfold boolValue_Set, intValue_Set, int64Value_Set, uintValue_Set,
    uint64Value_Set, stringValue_Set, float64Value_Set, durationValue_Set.
  repeat split;
    try match goal with |- context [let '(_, _) := ?x in _] => destruct x end;
    cbn [fst]; now rewrite lookup_insert_ne by congruence.
Qed.

Lemma builtin_Set_writes_own_variable_witness :
  (Value_Set (@intValue arch32 0%nat) "oops" {[ 1%nat := NBool true ]}).1 !! 1%nat =
    ({[ 1%nat := NBool true ]} : Store) !! 1%nat.
Proof.
  refine (proj1 (proj2 (@builtin_Set_writes_own_variable arch32 test_lib
            0%nat 1%nat "oops" {[ 1%nat := NBool true ]} _))).
  discriminate.
Defined.

(** X15. For each of the four integer kinds, [Set] on a literal (decimal,
    hex after [0x], octal after [0]) whose number the kind can hold
    succeeds and stores exactly that number. *)
Theorem integer_kinds_accept_in_range {arch : Arch}
    (p : loc) (s : string) (v : Z) (st : Store) :
  (signed_literal s = Some v ->
   min_signed IntSize' <= v <= max_signed IntSize' ->
   Value_Set (intValue p) s st = (<[p := NInt v]> st, None)) /\
  (signed_literal s = Some v ->
   min_signed 64 <= v <= max_signed 64 ->
   Value_Set (int64Value p) s st = (<[p := NInt64 v]> st, None)) /\
  (unsigned_literal s = Some v ->
   v <= max_unsigned IntSize' ->
   Value_Set (uintValue p) s st = (<[p := NUint v]> st, None)) /\
  (unsigned_literal s = Some v ->
   v <= max_unsigned 64 ->
   Value_Set (uint64Value p) s st = (<[p := NUint64 v]> st, None)).
Proof.
  split; [ | split; [ | split ] ]; intros H Hin.
  - rewrite (intValue_Set_literal p s v st H). unfold clamp_signed.
    destruct (Z.ltb_spec v (min_signed IntSize')); [ lia | ].
    destruct (Z.gtb_spec v (max_signed IntSize')); [ lia | reflexivity ].
  - rewrite (int64Value_Set_literal p s v st H). unfold clamp_signed.
    destruct (Z.ltb_spec v (min_signed 64)); [ lia | ].
    destruct (Z.gtb_spec v (max_signed 64)); [ lia | reflexivity ].
  - rewrite (uintValue_Set_literal p s v st H). unfold clamp_unsigned.
    destruct (Z.gtb_spec v (max_unsigned IntSize')); [ lia | reflexivity ].
  - rewrite (uint64Value_Set_literal p s v st H). unfold clamp_unsigned.
    destruct (Z.gtb_spec v (max_unsigned 64)); [ lia | reflexivity ].
Qed.

Lemma integer_kinds_accept_in_range_witness :
  Value_Set (int64Value 0%nat) "-0x23" ∅ = (<[0%nat := NInt64 (-35)]> ∅, None) /\
  Value_Set (@uintValue arch32 0%nat) "0664" ∅ = (<[0%nat := NUint 436]> ∅, None).
Proof.
  split.
  - apply (@integer_kinds_accept_in_range arch32 0%nat "-0x23" (-35) ∅).
    + reflexivity.
    + vm_compute. split; discriminate.
  - apply (@integer_kinds_accept_in_range arch32 0%nat "0664" 436 ∅).
    + reflexivity.
    + vm_compute. discriminate.
Defined.

Lemma to_uint_0 {arch : Arch} : to_uint 0 = 0.
Proof. apply to_uint_in_range. destruct (range_bounds _ IntSize_cases); lia. Qed.

Lemma to_int_0 {arch : Arch} : to_int 0 = 0.
Proof.
  apply to_int_in_range. destruct (range_bounds _ IntSize_cases) as (? & ? & _); lia.
Qed.

(** X16. The integer kinds on text that is no number: the empty text is
    a syntax error for all four, and the unsigned kinds take no sign, so
    that any text that begins with [-] or [+] is a syntax error for them.
    In each case the variable is set to 0. *)
Theorem integer_kinds_syntax_errors {arch : Arch} (p : loc) (st : Store) :
  Value_Set (intValue p) "" st =
    (<[p := NInt 0]> st, Some (strconv.syntaxError "ParseInt" "")) /\
  Value_Set (int64Value p) "" st =
    (<[p := NInt64 0]> st, Some (strconv.syntaxError "ParseInt" "")) /\
  Value_Set (uintValue p) "" st =
    (<[p := NUint 0]> st, Some (strconv.syntaxError "ParseUint" "")) /\
  Value_Set (uint64Value p) "" st =
    (<[p := NUint64 0]> st, Some (strconv.syntaxError "ParseUint" "")) /\
  (forall (sign : ascii) (rest : string),
     sign = "-"%char \/ sign = "+"%char ->
     Value_Set (uintValue p) (String sign rest) st =
       (<[p := NUint 0]> st,
        Some (strconv.syntaxError "ParseUint" (String sign rest))) /\
     Value_Set (uint64Value p) (String sign rest) st =
       (<[p := NUint64 0]> st,
        Some (strconv.syntaxError "ParseUint" (String sign rest)))).
Proof.
  cbn [Value_Set intValue int64Value uintValue uint64Value].
  unfold intValue_Set, int64Value_Set, uintValue_Set, uint64Value_Set.
  split; [ | split; [ | split; [ | split ] ] ].
  - cbn. now rewrite to_int_0.
  - reflexivity.
  - cbn. now rewrite to_uint_0.
  - reflexivity.
  - intros sign rest Hsign.
    assert (E : forall bits, strconv.ParseUint0 (String sign rest) bits =
              (0, Some (strconv.syntaxError "ParseUint" (String sign rest)))).
    { intros bits. unfold strconv.ParseUint0, strconv.ParseUint0_kind,
        strconv.base_prefix.
      destruct Hsign as [-> | ->]; destruct rest; reflexivity. }
    rewrite !E. now rewrite to_uint_0.
Qed.

Lemma integer_kinds_syntax_errors_witness :
  Value_Set (@uintValue arch64 0%nat) "-1" {[ 0%nat := NUint 5 ]} =
    (<[0%nat := NUint 0]> {[ 0%nat := NUint 5 ]},
     Some (strconv.syntaxError "ParseUint" "-1")).
Proof.
  refine (proj1 (proj2 (proj2 (proj2 (proj2
            (@integer_kinds_syntax_errors arch64 0%nat {[ 0%nat := NUint 5 ]}))))
            "-"%char "1" _)).
  now left.
Defined.

(** X18. Every built-in kind is a [Getter], and right after construction
    [Get] returns the default, for all eight kinds. *)
Theorem Get_returns_default {arch : Arch} {lib : GoLib} (p : loc) (st : Store) :
  (forall d, Get_of (newBoolValue d p st).1 (newBoolValue d p st).2 = Some (NBool d)) /\
  (forall d, Get_of (newIntValue d p st).1 (newIntValue d p st).2 = Some (NInt d)) /\
  (forall d, Get_of (newInt64Value d p st).1 (newInt64Value d p st).2 = Some (NInt64 d)) /\
  (forall d, Get_of (newUintValue d p st).1 (newUintValue d p st).2 = Some (NUint d)) /\
  (forall d, Get_of (newUint64Value d p st).1 (newUint64Value d p st).2 = Some (NUint64 d)) /\
  (forall d, Get_of (newStringValue d p st).1 (newStringValue d p st).2 = Some (NString d)) /\
  (forall d, Get_of (newFloat64Value d p st).1 (newFloat64Value d p st).2 = Some (NFloat64 d)) /\
  (forall d, Get_of (newDurationValue d p st).1 (newDurationValue d p st).2 =
             Some (NDuration d)).
Proof.
  repeat split; intros d; unfold Get_of; cbn;
    unfold boolValue_Get, intValue_Get, int64Value_Get, uintValue_Get,
      uint64Value_Get, stringValue_Get, float64Value_Get, durationValue_Get,
      load_bool, load_int, load_int64, load_uint, load_uint64, load_string,
      load_float64, load_duration;
    now rewrite lookup_insert_eq.
Qed.

(* ================================================================== *)
(** * Typed registration and allocation *)

(** X19. A typed registration writes the default through the pointer
    before it registers: after [BoolVar(p, name, d)], and likewise for
    the other kinds, the variable behind [p] holds [d] whether the call
    returned or panicked because the name was taken, so a refused
    registration still overwrites the caller's variable.  When the name is
    free the call returns and [Lookup] gives a record of that kind bound
    to [p]. *)
Theorem typed_registration_writes_default {arch : Arch} {lib : GoLib}
    (p : loc) (name : string) (σ : State) :
  (forall d, store (BoolVar p name d σ).2.2 = <[p := NBool d]> (store σ.2)) /\
  (forall d, store (IntVar p name d σ).2.2 = <[p := NInt d]> (store σ.2)) /\
  (forall d, store (Int64Var p name d σ).2.2 = <[p := NInt64 d]> (store σ.2)) /\
  (forall d, store (UintVar p name d σ).2.2 = <[p := NUint d]> (store σ.2)) /\
  (forall d, store (Uint64Var p name d σ).2.2 = <[p := NUint64 d]> (store σ.2)) /\
  (forall d, store (StringVar p name d σ).2.2 = <[p := NString d]> (store σ.2)) /\
  (forall d, store (Float64Var p name d σ).2.2 = <[p := NFloat64 d]> (store σ.2)) /\
  (forall d, store (DurationVar p name d σ).2.2 = <[p := NDuration d]> (store σ.2)) /\
  (forall (T : Type) (newValue : T -> loc -> Store -> Value * Store) (d : T),
     map_get (formal σ.1) name = None ->
     (register newValue p name d σ).1 = Returned tt /\
     Lookup (register newValue p name d σ).2.1 name =
       Some {| Name := name; EnvVar_Value := (newValue d p (store σ.2)).1 |}).
Proof.
  destruct σ as [evs wd].
  assert (Hstore : forall (T : Type) (newValue : T -> loc -> Store -> Value * Store) d,
            store (register newValue p name d (evs, wd)).2.2 =
            (newValue d p (store wd)).2).
  { intros T newValue d. unfold register.
    destruct (newValue d p (store wd)) as [v st]. unfold Var.
    destruct (map_get (formal evs) name); reflexivity. }
  do 8 (split; [ intros d; unfold BoolVar, IntVar, Int64Var, UintVar,
    Uint64Var, StringVar, Float64Var, DurationVar; now rewrite Hstore | ]).
  intros T newValue d Hf. cbn [fst snd] in Hf. unfold register. cbn [snd].
  destruct (newValue d p (store wd)) as [v st]. cbn [fst].
  unfold Var. rewrite Hf. split; [ reflexivity | ].
  unfold Lookup. cbn [fst snd with_formal formal].
  rewrite map_get_put. now rewrite decide_True.
Qed.

Lemma typed_registration_writes_default_witness :
  let evs := with_formal (NewEnvVarSet "" ContinueOnError)
               (Some {[ "A" := {| Name := "A"; EnvVar_Value := boolValue 0%nat |} ]}) in
  let wd := {| store := {[ 1%nat := NBool true ]}; written := []; history := [] |} in
  (BoolVar 1%nat "A" false (evs, wd)).1 =
    Panicked (PanicString "EnvVar redefined: A") /\
  store (BoolVar 1%nat "A" false (evs, wd)).2.2 =
    <[1%nat := NBool false]> {[ 1%nat := NBool true ]} /\
  (BoolVar 1%nat "B" false (evs, wd)).1 = Returned tt.
Proof.
  intros evs wd.
  pose proof (@typed_registration_writes_default arch32 test_lib 1%nat "A" (evs, wd))
    as (Hbool & _).
  pose proof (@typed_registration_writes_default arch32 test_lib 1%nat "B" (evs, wd))
    as (_ & _ & _ & _ & _ & _ & _ & _ & Hreg).
  split; [ reflexivity | ]. split; [ apply Hbool | ].
  apply (Hreg bool newBoolValue false). reflexivity.
Defined.

(* ================================================================== *)
(** * How the traversals and the count fit together *)

Lemma sortEnvVars_length (envVars : option (gmap string EnvVar))
    (order : list (string * EnvVar)) :
  range_order envVars order ->
  length (sortEnvVars order envVars) = size (map_entries envVars).
Proof.
  intros Hp. unfold sortEnvVars, range_order in *.
  rewrite length_fmap, (Permutation_length (merge_sort_Permutation _ _)),
    length_fmap, (Permutation_length Hp).
  apply length_map_to_list.
Qed.

Lemma foldl_count {A} (l : list A) (n : nat) :
  foldl (fun (k : nat) (_ : A) => S k) n l = (n + length l)%nat.
Proof.
  revert n. induction l as [|x l IH]; intros n; cbn; [ lia | ].
  rewrite IH. lia.
Qed.

(** X21. [Visit] calls its observer [NEnvVar] times and [VisitAll] once
    for every registered variable; every record that [Visit] passes to the
    observer is one that [VisitAll] passes too. *)
Theorem Visit_within_VisitAll (σ : State)
    (order_formal order_actual : list (string * EnvVar)) :
  reachable σ ->
  range_order (formal σ.1) order_formal ->
  range_order (actual σ.1) order_actual ->
  exists set_records all_records : list EnvVar,
    (forall (A : Type) (fn : option EnvVar -> A -> A) (a : A),
       Visit order_actual fn σ.1 a =
       foldl (fun a envVar => fn (Some envVar) a) a set_records) /\
    (forall (A : Type) (fn : option EnvVar -> A -> A) (a : A),
       VisitAll order_formal fn σ.1 a =
       foldl (fun a envVar => fn (Some envVar) a) a all_records) /\
    length set_records = NEnvVar σ.1 /\
    length all_records = size (map_entries (formal σ.1)) /\
    (forall envVar, envVar ∈ set_records -> envVar ∈ all_records) /\
    Visit order_actual (fun _ calls => S calls) σ.1 0%nat = NEnvVar σ.1 /\
    VisitAll order_formal (fun _ calls => S calls) σ.1 0%nat =
      size (map_entries (formal σ.1)).
Proof.
  intros Hr Hf Ha. destruct (Inv_reachable σ Hr) as [I1 I2 _ _].
  assert (Hkey : forall n ev, map_get (actual σ.1) n = Some ev -> Name ev = n).
  { intros n ev Hn. apply I1. now apply I2. }
  pose proof (sortEnvVars_length _ _ Hf) as Hlf.
  pose proof (sortEnvVars_length _ _ Ha) as Hla.
  destruct (sortEnvVars_sorted_records _ _ I1 Hf) as (rf & Ef & Hpf & _).
  destruct (sortEnvVars_sorted_records _ _ Hkey Ha) as (ra & Ea & Hpa & _).
  rewrite Ef, length_fmap in Hlf. rewrite Ea, length_fmap in Hla.
  exists ra, rf.
  assert (HV : forall (A : Type) (fn : option EnvVar -> A -> A) (a : A),
            Visit order_actual fn σ.1 a =
            foldl (fun a envVar => fn (Some envVar) a) a ra).
  { intros A fn a. unfold Visit. rewrite Ea. now rewrite foldl_fmap. }
  assert (HVA : forall (A : Type) (fn : option EnvVar -> A -> A) (a : A),
            VisitAll order_formal fn σ.1 a =
            foldl (fun a envVar => fn (Some envVar) a) a rf).
  { intros A fn a. unfold VisitAll. rewrite Ef. now rewrite foldl_fmap. }
  split; [ exact HV | ]. split; [ exact HVA | ].
  split; [ exact Hla | ]. split; [ exact Hlf | ]. split.
  - intros ev Hin. rewrite Hpa in Hin. rewrite Hpf.
    apply list_elem_of_fmap in Hin as ([n ev'] & -> & Hin).
    apply elem_of_map_to_list in Hin. rewrite <- map_get_entries in Hin.
    apply I2 in Hin. rewrite map_get_entries in Hin.
    apply list_elem_of_fmap. exists (n, ev'). split; [ reflexivity | ].
    now apply elem_of_map_to_list.
  - split.
    + rewrite HV, foldl_count. exact Hla.
    + rewrite HVA, foldl_count. exact Hlf.
Qed.

Lemma Visit_within_VisitAll_witness :
  let σ := run [OpVar (boolValue 0%nat) "Z"; OpVar (boolValue 1%nat) "A";
                OpSet "Z" "true"]
             (NewEnvVarSet "" ContinueOnError, empty_world) in
  Visit (map_to_list (map_entries (actual σ.1))) (fun _ calls => S calls) σ.1 0%nat =
    NEnvVar σ.1.
Proof.
  intros σ.
  destruct (Visit_within_VisitAll σ
              (map_to_list (map_entries (formal σ.1)))
              (map_to_list (map_entries (actual σ.1))))
    as (ra & rf & _ & _ & _ & _ & _ & Hcount & _).
  - eexists _, _. split; [ | reflexivity ].
    split; [ eexists _, _; reflexivity | reflexivity ].
  - unfold range_order. reflexivity.
  - unfold range_order. reflexivity.
  - exact Hcount.
Defined.
